(** * Fortnite tracker: sessions, inactivity sweep and overlap engine

    A shallow embedding of [src/index.js]: the player store, the time
    utilities, the session rules ([ensureSessionOnNewMatch],
    [closeInactiveSessions], [isPlayingNow]), the body of the polling cycle
    ([scanAll]), the overlap sweep ([computeOverlaps]) and the load/save
    contract ([loadState], [saveState]).

    Conventions.
    - An ISO-8601 UTC string is represented by the instant it denotes, in
      integer milliseconds since the epoch ([Z]); a field that may hold
      [null] is an [option].  JavaScript truthiness of such a field
      ([if (!x)], [x ? a : b]) is the test for [Some].
    - [nowUtc()] is a clock read; every function that reads the clock takes
      the instant read as its argument [now].
    - Instants and durations are JavaScript numbers holding integers; below
      2^53 their sums, differences and comparisons are exact, and they are
      computed here in [Z].  The one quotient, minutes out of milliseconds in
      [minutesBetween], is kept exact in [Q]: it is only compared with
      [INACTIVITY_MINUTES], and on such integers the comparison of the
      rounded quotient has the same outcome.
    - [state] is the module-level mutable variable of the script; functions
      that touch it are written in a small state-and-error monad over the
      world (the variable and the data file).  An uncaught [TypeError]
      (property access on [undefined]) is the monad's failure; a run that
      fails has no resulting world here, and polls of roster players never
      fail ([step_total]). *)

From Stdlib Require Import ZArith QArith Qabs List String Bool Lia.
From Stdlib Require Import Sorting.Sorted.
From Stdlib Require Import Ascii.
From Stdlib Require Decimal DecimalString DecimalZ.
Import ListNotations.
Open Scope Z_scope.

(** ** Config *)

Definition INACTIVITY_MINUTES : Z := 30.

Record rosterEntry := mkRoster { r_name : string; r_url : string }.

Local Open Scope string_scope.

Definition PLAYERS : list rosterEntry :=
  [ mkRoster "Zumito Kun" "https://fortnitetracker.com/profile/all/Zumito%20Kun/matches";
    mkRoster "Lulau22" "https://fortnitetracker.com/profile/all/Lulau22/matches";
    mkRoster "Antocar69 TTV" "https://fortnitetracker.com/profile/all/Antocar69%20TTV/matches";
    mkRoster "Cronoxis" "https://fortnitetracker.com/profile/all/Cronoxis/matches" ].

Local Close Scope string_scope.

(** ** Data model *)

(** An ISO string or [null]. *)
Definition ISO := option Z.

Record session := mkSession { start : ISO; end_ : ISO }.

Record player := mkPlayer {
  name : string;
  url : string;
  lastMatchId : option string;
  lastMatchAt : ISO;
  sessions : list session
}.

Record latest := mkLatest { lm_player : string; lm_matchId : string; lm_at : Z }.

(** [players] is a JavaScript object used as a map: its keys are unique and
    [Object.values] enumerates it in insertion order, hence an association
    list read at the first binding of a key.  The keys are player names; a
    key spelled as an array index (["7"], say), which JavaScript enumerates
    before all others, is outside the model. *)
Record state := mkState {
  players : list (string * player);
  latestMatch : option latest;
  createdAt : Z
}.

(** What [data.json] holds: nothing, text from which [loadState] does not
    come back with a state (its [catch] branch), or the JSON document of a
    state.  [JSON.stringify] followed by [JSON.parse] rebuilds the same tree
    of strings, [null]s, arrays and string-keyed objects, so the document is
    identified with the state it denotes.

    [Stored] holds complete states only: every entry of [players] has its
    five fields, as in every document [saveState] writes.  A document that
    parses and has a [players] object whose entries lack fields (no
    [sessions] array, say) has no value here: [loadState] returns it as it
    is, and [ensureSessionOnNewMatch] and [closeInactiveSessions] later
    throw on it.  What is proved of the loaded states is proved of the three
    cases below and of no other content of the file. *)
Inductive dataFile :=
| NoFile
| Unreadable
| Stored (parsed : state).

Record world := mkWorld { mem : state; disk : dataFile }.

(** ** Association-list access to [state.players] *)

Fixpoint lookup (k : string) (l : list (string * player)) : option player :=
  match l with
  | [] => None
  | (k', p) :: l' => if String.eqb k k' then Some p else lookup k l'
  end.

Fixpoint update (k : string) (f : player -> player) (l : list (string * player))
  : list (string * player) :=
  match l with
  | [] => []
  | (k', p) :: l' =>
      if String.eqb k k' then (k', f p) :: l' else (k', p) :: update k f l'
  end.

Definition values (l : list (string * player)) : list player := map snd l.

(** ** Estado & persistencia *)

Definition defaultPlayer (r : rosterEntry) : player :=
  mkPlayer (r_name r) (r_url r) None None [].

Definition defaultState (now : Z) : state :=
  mkState (map (fun r => (r_name r, defaultPlayer r)) PLAYERS) None now.

Definition set_url (u : string) (p : player) : player :=
  mkPlayer (name p) u (lastMatchId p) (lastMatchAt p) (sessions p).

(** One turn of the roster loop of [loadState]. *)
Definition mergeRoster (ps : list (string * player)) (r : rosterEntry)
  : list (string * player) :=
  match lookup (r_name r) ps with
  | None => ps ++ [(r_name r, defaultPlayer r)]
  | Some _ => update (r_name r) (set_url (r_url r)) ps
  end.

Definition loadState (now : Z) (f : dataFile) : state :=
  match f with
  | Stored parsed =>
      mkState (fold_left mergeRoster PLAYERS (players parsed))
              (latestMatch parsed) (createdAt parsed)
  | Unreadable => defaultState now
  | NoFile => defaultState now
  end.

(** ** The monad of the script *)

Definition M (A : Type) : Type := world -> option (A * world).

Definition ret {A} (a : A) : M A := fun w => Some (a, w).
Definition bind {A B} (m : M A) (k : A -> M B) : M B :=
  fun w => match m w with
           | Some (a, w') => k a w'
           | None => None
           end.
Definition throw {A} : M A := fun _ => None.
Definition getState : M state := fun w => Some (mem w, w).
Definition putState (s : state) : M unit :=
  fun w => Some (tt, mkWorld s (disk w)).

Notation "x <- m ;; k" := (bind m (fun x => k))
  (at level 61, m at next level, right associativity).
Notation "m ;;; k" := (bind m (fun _ => k))
  (at level 61, right associativity).

Definition exec {A} (m : M A) (w : world) : option world :=
  option_map snd (m w).
Definition eval {A} (m : M A) (w : world) : option A :=
  option_map fst (m w).

(** [state.players[k]] followed by a property access. *)
Definition getPlayer (k : string) : M player :=
  s <- getState ;;
  match lookup k (players s) with
  | Some p => ret p
  | None => throw
  end.

(** In-place mutation of the object [state.players[k]]. *)
Definition modifyPlayer (k : string) (f : player -> player) : M unit :=
  s <- getState ;;
  match lookup k (players s) with
  | Some _ => putState (mkState (update k f (players s)) (latestMatch s) (createdAt s))
  | None => throw
  end.

(** [writeFileSync] either replaces the file or throws into the [catch];
    [ok] is what the file system answers. *)
Definition saveState (ok : bool) : M unit :=
  fun w => Some (tt, if ok then mkWorld (mem w) (Stored (mem w)) else w).

(** ** Utiles de tiempo *)

Definition isoToDT (iso : ISO) : option Z := iso.

(** [x > y] on numbers that are not [NaN]. *)
Definition Qgt_bool (x y : Q) : bool := negb (Qle_bool x y).

(** Minutes as the exact quotient of the millisecond difference. *)
Definition minutesBetween (aISO bISO : ISO) : option Q :=
  match isoToDT aISO, isoToDT bISO with
  | Some a, Some b => Some (Qabs ((b - a) # 60000))
  | _, _ => None
  end.

(** ** Logica de sesiones *)

(** [sessions[sessions.length - 1]] *)
Definition lastOf (ss : list session) : option session :=
  nth_error ss (List.length ss - 1).

Definition push_session (s : session) (p : player) : player :=
  mkPlayer (name p) (url p) (lastMatchId p) (lastMatchAt p) (sessions p ++ [s]).

Definition ensureSessionOnNewMatch (pl : string) (matchAtISO : Z) : M unit :=
  p <- getPlayer pl ;;
  match lastOf (sessions p) with
  | Some (mkSession _ None) => ret tt
  | _ => modifyPlayer pl (push_session (mkSession (Some matchAtISO) None))
  end.

(** [last.end = e] on the last element of [p.sessions]. *)
Definition set_last_end (e : Z) (p : player) : player :=
  match lastOf (sessions p) with
  | Some l =>
      mkPlayer (name p) (url p) (lastMatchId p) (lastMatchAt p)
               (removelast (sessions p) ++ [mkSession (start l) (Some e)])
  | None => p
  end.

(** The body of the loop of [closeInactiveSessions]. *)
Definition closePlayer (nowIso : Z) (p : player) : player :=
  match lastOf (sessions p) with
  | None => p
  | Some (mkSession _ (Some _)) => p
  | Some (mkSession _ None) =>
      match lastMatchAt p with
      | None => set_last_end nowIso p
      | Some lastAt =>
          match minutesBetween (Some lastAt) (Some nowIso) with
          | Some mins =>
              if Qgt_bool mins (inject_Z INACTIVITY_MINUTES)
              then set_last_end lastAt p
              else p
          | None => p
          end
      end
  end.

Definition closeInactiveSessions (now : Z) : M unit :=
  s <- getState ;;
  putState (mkState (map (fun kp => (fst kp, closePlayer now (snd kp))) (players s))
                    (latestMatch s) (createdAt s)).

Definition isPlayingNow (now : Z) (p : player) : bool :=
  match lastMatchAt p with
  | None => false
  | Some lastAt =>
      match minutesBetween (Some lastAt) (Some now) with
      | Some mins => Qle_bool mins (inject_Z INACTIVITY_MINUTES)
      | None => false
      end
  end.

(** ** Ciclo de scraping *)

(** What [scrapeLatestMatch] resolves to: [{ matchId, atISO }] or [null]. *)
Record matchInfo := mkInfo { matchId : string; atISO : Z }.

Definition option_string_eqb (a b : option string) : bool :=
  match a, b with
  | Some x, Some y => String.eqb x y
  | None, None => true
  | _, _ => false
  end.

Definition set_lastMatchId (m : string) (p : player) : player :=
  mkPlayer (name p) (url p) (Some m) (lastMatchAt p) (sessions p).

Definition set_lastMatchAt (a : Z) (p : player) : player :=
  mkPlayer (name p) (url p) (lastMatchId p) (Some a) (sessions p).

Definition setLatestMatch (l : latest) : M unit :=
  s <- getState ;;
  putState (mkState (players s) (Some l) (createdAt s)).

(** The body of the loop of [scanAll] for the roster entry [r]; [info] is
    the answer of the scrape and [ok] that of the file system. *)
Definition scanPlayer (r : rosterEntry) (info : option matchInfo) (ok : bool) : M unit :=
  match info with
  | None => ret tt
  | Some i =>
      p <- getPlayer (r_name r) ;;
      let prevId := lastMatchId p in
      if negb (option_string_eqb (Some (matchId i)) prevId) then
        modifyPlayer (r_name r) (set_lastMatchId (matchId i)) ;;;
        modifyPlayer (r_name r) (set_lastMatchAt (atISO i)) ;;;
        ensureSessionOnNewMatch (r_name r) (atISO i) ;;;
        setLatestMatch (mkLatest (r_name r) (matchId i) (atISO i)) ;;;
        saveState ok
      else ret tt
  end.




(** ** Computo de solapes *)

Record event := mkEvent { ev_t : Z; ev_type : Z; ev_who : string }.

Record interval := mkInterval {
  iv_start : Z;
  iv_end : Z;
  durationMs : Z;
  iv_players : list string;
  count : nat
}.

Record summary := mkSummary {
  exactly2Ms : Z;
  exactly3Ms : Z;
  exactly4Ms : Z;
  twoOrMoreMs : Z
}.

Record overlaps := mkOverlaps { ov_summary : summary; ov_intervals : list interval }.

(** The two pushes of the inner loop for the session [s] of [p]. *)
Definition sessionEvents (now : Z) (p : player) (s : session) : list event :=
  let startDT := isoToDT (start s) in
  let endDT := match end_ s with
               | Some e => isoToDT (Some e)
               | None => if isPlayingNow now p then Some now else None
               end in
  match startDT, endDT with
  | None, _ => []
  | _, None => []
  | Some a, Some e => [mkEvent a 1 (name p); mkEvent e (-1) (name p)]
  end.

Definition playerEvents (now : Z) (p : player) : list event :=
  flat_map (sessionEvents now p) (sessions p).

Definition buildEvents (now : Z) (s : state) : list event :=
  flat_map (playerEvents now) (values (players s)).

(** The comparator handed to [events.sort]. *)
Definition compareEvents (a b : event) : Z :=
  if ev_t a =? ev_t b then ev_type a - ev_type b else ev_t a - ev_t b.

(** [Array.prototype.sort] is stable, and [compareEvents] orders events by
    the pair (instant, type): the result is the one of any stable sort, here
    insertion from the right, an element going before its equals. *)
Fixpoint insertEvent (x : event) (l : list event) : list event :=
  match l with
  | [] => [x]
  | y :: l' => if compareEvents x y <=? 0 then x :: y :: l' else y :: insertEvent x l'
  end.

Fixpoint sortEvents (l : list event) : list event :=
  match l with
  | [] => []
  | x :: l' => insertEvent x (sortEvents l')
  end.

(** A [Set] of names keeps insertion order. *)
Fixpoint set_has (x : string) (s : list string) : bool :=
  match s with
  | [] => false
  | y :: s' => if String.eqb x y then true else set_has x s'
  end.

Definition set_add (x : string) (s : list string) : list string :=
  if set_has x s then s else s ++ [x].

Definition set_delete (x : string) (s : list string) : list string :=
  filter (fun y => negb (String.eqb x y)) s.

Record sweepState := mkSweep {
  active : list string;
  intervals : list interval;
  prevT : option Z
}.

(** One turn of the sweep loop. *)
Definition sweepStep (st : sweepState) (ev : event) : sweepState :=
  let emitted :=
    match prevT st with
    | Some segStart =>
        if (2 <=? List.length (active st))%nat then
          let segEnd := ev_t ev in
          if segEnd >? segStart then
            intervals st ++ [mkInterval segStart segEnd (segEnd - segStart)
                                        (active st) (List.length (active st))]
          else intervals st
        else intervals st
    | None => intervals st
    end in
  let active' :=
    if ev_type ev =? -1 then set_delete (ev_who ev) (active st)
    else if ev_type ev =? 1 then set_add (ev_who ev) (active st)
    else active st in
  mkSweep active' emitted (Some (ev_t ev)).

Definition sweep (evs : list event) : sweepState :=
  fold_left sweepStep evs (mkSweep [] [] None).

(** Every interval the sweep emits, before the cut to the last hundred. *)
Definition allIntervals (now : Z) (s : state) : list interval :=
  intervals (sweep (sortEvents (buildEvents now s))).

Definition summaryStep (acc : Z * Z * Z) (seg : interval) : Z * Z * Z :=
  let '(e2, e3, e4) := acc in
  if (count seg =? 2)%nat then (e2 + durationMs seg, e3, e4)
  else if (count seg =? 3)%nat then (e2, e3 + durationMs seg, e4)
  else if (4 <=? count seg)%nat then (e2, e3, e4 + durationMs seg)
  else (e2, e3, e4).

Definition summarize (ivs : list interval) : summary :=
  let '(e2, e3, e4) := fold_left summaryStep ivs (0, 0, 0) in
  mkSummary e2 e3 e4 (e2 + e3 + e4).

(** [a.slice(-n)] *)
Definition slice_last {A} (n : nat) (a : list A) : list A :=
  skipn (List.length a - n) a.

Definition computeOverlaps (now : Z) : M overlaps :=
  s <- getState ;;
  let ivs := allIntervals now s in
  ret (mkOverlaps (summarize ivs) (slice_last 100 ivs)).

(** * Vocabulary of the properties *)

(** The inactivity window in milliseconds. *)
Definition windowMs : Z := INACTIVITY_MINUTES * 60000.

(** The player after an accepted observation: both pointers move, and a
    session opens unless one is open. *)
Definition acceptMatch (i : matchInfo) (p : player) : player :=
  let q := set_lastMatchAt (atISO i) (set_lastMatchId (matchId i) p) in
  match lastOf (sessions p) with
  | Some (mkSession _ None) => q
  | _ => push_session (mkSession (Some (atISO i)) None) q
  end.

Definition acceptedWorld (r : rosterEntry) (i : matchInfo) (ok : bool) (w : world) : world :=
  let s := mkState (update (r_name r) (acceptMatch i) (players (mem w)))
                   (Some (mkLatest (r_name r) (matchId i) (atISO i)))
                   (createdAt (mem w)) in
  mkWorld s (if ok then Stored s else disk w).


(** *** Runs of the store's mutation operations *)

(** One poll of one roster player (the answer of the scrape and of the file
    system), one inactivity sweep, or one save. *)
Inductive op :=
| Observe (r : rosterEntry) (info : option matchInfo) (ok : bool)
| Sweep (now : Z)
| Save (ok : bool).

Definition step (o : op) : M unit :=
  match o with
  | Observe r info ok => scanPlayer r info ok
  | Sweep now => closeInactiveSessions now
  | Save ok => saveState ok
  end.

Fixpoint run (ops : list op) : M unit :=
  match ops with
  | [] => ret tt
  | o :: ops' => step o ;;; run ops'
  end.


(** [scanAll] only polls the configured roster. *)
Definition on_roster (o : op) : Prop :=
  match o with
  | Observe r _ _ => In r PLAYERS
  | _ => True
  end.

(** An observation goes backwards when it is accepted (its match id is new)
    and its instant is earlier than the stored [lastMatchAt]. *)
Definition not_backwards (w : world) (o : op) : bool :=
  match o with
  | Observe r (Some i) _ =>
      match lookup (r_name r) (players (mem w)) with
      | Some p =>
          match lastMatchAt p with
          | Some T => option_string_eqb (Some (matchId i)) (lastMatchId p)
                      || (T <=? atISO i)
          | None => true
          end
      | None => true
      end
  | _ => true
  end.

(** No observation of the run goes backwards. *)
Fixpoint in_order (ops : list op) (w : world) : bool :=
  match ops with
  | [] => true
  | o :: ops' =>
      not_backwards w o &&
      match step o w with
      | Some (_, w') => in_order ops' w'
      | None => true
      end
  end.

(** The observations of the player under key [k] do not go backwards. *)
Definition not_backwards_for (k : string) (w : world) (o : op) : bool :=
  match o with
  | Observe r _ _ => if String.eqb (r_name r) k then not_backwards w o else true
  | _ => true
  end.

(** No observation of the player under key [k] goes backwards in the run,
    whatever the observations of the other players do. *)
Fixpoint in_order_for (k : string) (ops : list op) (w : world) : bool :=
  match ops with
  | [] => true
  | o :: ops' =>
      not_backwards_for k w o &&
      match step o w with
      | Some (_, w') => in_order_for k ops' w'
      | None => true
      end
  end.

(** The worlds the script goes through: it starts from [loadState] on a
    data file that is missing, unreadable or holds a complete state, then
    polls roster players, sweeps and saves. *)
Inductive reachable : world -> Prop :=
| reach_start (now : Z) (d : dataFile) : reachable (mkWorld (loadState now d) d)
| reach_step (o : op) (w w' : world) :
    reachable w -> on_roster o -> step o w = Some (tt, w') -> reachable w'.

(** Every roster player has an entry, with the configured URL. *)
Definition roster_synced (rs : list rosterEntry) (ps : list (string * player)) : Prop :=
  forall r, In r rs ->
    exists p, lookup (r_name r) ps = Some p /\ url p = r_url r.

(** *** The session log of a player *)

Definition closed (s : session) : Prop := end_ s <> None.

(** At most one session is open, and it is the last one. *)
Definition one_open_last (ss : list session) : Prop :=
  Forall closed (removelast ss).

Definition starts_before (s1 s2 : session) : Prop :=
  exists a b, start s1 = Some a /\ start s2 = Some b /\ a <= b.

Definition ends_before (s1 s2 : session) : Prop :=
  exists e b, end_ s1 = Some e /\ start s2 = Some b /\ e <= b.

(** Ordered by [start]: every session starts no later than every later one. *)
Definition chronological (ss : list session) : Prop :=
  StronglySorted starts_before ss.

(** Pairwise non-overlapping: every session has ended when a later one starts. *)
Definition non_overlapping (ss : list session) : Prop :=
  StronglySorted ends_before ss.

(** [start <= end] when closed. *)
Definition well_formed (s : session) : Prop :=
  exists a, start s = Some a /\ forall e, end_ s = Some e -> a <= e.

Definition bounded_by (T : Z) (s : session) : Prop :=
  (forall a, start s = Some a -> a <= T) /\ (forall e, end_ s = Some e -> e <= T).

(** What the log of a player satisfies as long as observations do not go
    backwards: nothing in it is later than [lastMatchAt]. *)
Definition player_ok (p : player) : Prop :=
  Forall well_formed (sessions p) /\
  non_overlapping (sessions p) /\
  (sessions p = [] \/
   exists T, lastMatchAt p = Some T /\ Forall (bounded_by T) (sessions p)).

Definition all_players (P : player -> Prop) (w : world) : Prop :=
  Forall P (values (players (mem w))).

Definition roster_present (s : state) : Prop :=
  forall r, In r PLAYERS -> lookup (r_name r) (players s) <> None.

(** *** The sweep *)

(** The order [compareEvents] sorts by. *)
Definition ev_le (a b : event) : Prop := compareEvents a b <= 0.

Definition interval_ok (iv : interval) : Prop :=
  count iv = List.length (iv_players iv) /\
  NoDup (iv_players iv) /\
  (2 <= count iv)%nat /\
  durationMs iv = iv_end iv - iv_start iv /\
  0 < durationMs iv.

(** The later interval starts no earlier than the earlier one ends. *)
Definition follows (i1 i2 : interval) : Prop := iv_end i1 <= iv_start i2.

Definition sweep_ok (st : sweepState) : Prop :=
  NoDup (active st) /\
  Forall interval_ok (intervals st) /\
  StronglySorted follows (intervals st) /\
  (forall iv, In iv (intervals st) ->
     exists p, prevT st = Some p /\ iv_end iv <= p).

(** The sum of the durations of a list of intervals. *)
Definition totalMs (ivs : list interval) : Z :=
  fold_right (fun iv acc => durationMs iv + acc) 0 ivs.

(** The intervals whose [count] passes the test [c]. *)
Definition with_count (c : nat -> bool) (ivs : list interval) : list interval :=
  filter (fun iv => c (count iv)) ivs.

Definition is2 (c : nat) : bool := (c =? 2)%nat.
Definition is3 (c : nat) : bool := (c =? 3)%nat.
Definition atLeast4 (c : nat) : bool := (4 <=? c)%nat.

(** The span of time a session stands for in the sweep: a closed session
    as logged, the open session of a player who is playing now up to the
    clock read. *)
Record span := mkSpan { sp_start : Z; sp_end : Z; sp_who : string }.

Definition sessionSpans (now : Z) (p : player) (s : session) : list span :=
  match start s, end_ s with
  | Some a, Some e => [mkSpan a e (name p)]
  | Some a, None => if isPlayingNow now p then [mkSpan a now (name p)] else []
  | None, _ => []
  end.

Definition spans (now : Z) (s : state) : list span :=
  flat_map (fun p => flat_map (sessionSpans now p) (sessions p)) (values (players s)).

Definition spanEvents (sp : span) : list event :=
  [mkEvent (sp_start sp) 1 (sp_who sp); mkEvent (sp_end sp) (-1) (sp_who sp)].

(** Every participant of the interval is in a span that covers it. *)
Definition covered (sps : list span) (iv : interval) : Prop :=
  forall n, In n (iv_players iv) ->
    exists sp, In sp sps /\ sp_who sp = n /\
               sp_start sp <= iv_start iv /\ iv_end iv <= sp_end sp.

(** The state of the sweep before the events [todo]: every active player is
    in a span that began and whose closing is still to come. *)
Definition sweep_sound (sps : list span) (todo : list event) (st : sweepState) : Prop :=
  (forall p y, prevT st = Some p -> In y todo -> p <= ev_t y) /\
  (forall n, In n (active st) ->
     exists sp, In sp sps /\ sp_who sp = n /\
                (exists p, prevT st = Some p /\ sp_start sp <= p) /\
                In (mkEvent (sp_end sp) (-1) n) todo) /\
  Forall (covered sps) (intervals st).

Definition set_sessions (ss : list session) (p : player) : player :=
  mkPlayer (name p) (url p) (lastMatchId p) (lastMatchAt p) ss.

(** *** Sample stores *)

Local Open Scope string_scope.

(** Cronoxis played one match at instant 0 and has an open session. *)
Definition cronoxis_open : player :=
  mkPlayer "Cronoxis" "https://fortnitetracker.com/profile/all/Cronoxis/matches"
           (Some "m1") (Some 0) [mkSession (Some 0) None].

Definition store_open : world :=
  mkWorld (mkState [("Cronoxis", cronoxis_open)] None 0) NoFile.

(** A player whose last match is stamped 31 minutes after the clock read 0. *)
Definition ahead_of_clock : player :=
  mkPlayer "Lulau22" "https://fortnitetracker.com/profile/all/Lulau22/matches"
           (Some "m7") (Some 1860000) [].

(** Zumito Kun in one session over [0, 2020]; Lulau22 in 101 sessions
    [20 i, 20 i + 10], i = 0 .. 100. *)
Definition store_101 : world :=
  mkWorld
    (mkState
       [ ("Zumito Kun",
          mkPlayer "Zumito Kun" "" (Some "m1") (Some 2020)
                   [mkSession (Some 0) (Some 2020)]);
         ("Lulau22",
          mkPlayer "Lulau22" "" (Some "m2") (Some 2010)
                   (map (fun i => mkSession (Some (20 * Z.of_nat i))
                                            (Some (20 * Z.of_nat i + 10)))
                        (seq 0 101))) ]
       None 0)
    NoFile.

Definition closed_player (n : string) (a e : Z) : string * player :=
  (n, mkPlayer n "" (Some "m") (Some e) [mkSession (Some a) (Some e)]).

(** Sessions over minutes [0, 30] and [15, 45] of two players. *)
Definition store_two : world :=
  mkWorld (mkState [closed_player "Zumito Kun" 0 1800000;
                    closed_player "Lulau22" 900000 2700000] None 0) NoFile.

(** Three players, each in a session over minutes [0, 10]. *)
Definition store_three : world :=
  mkWorld (mkState [closed_player "Zumito Kun" 0 600000;
                    closed_player "Lulau22" 0 600000;
                    closed_player "Cronoxis" 0 600000] None 0) NoFile.

Definition zumito : rosterEntry :=
  mkRoster "Zumito Kun" "https://fortnitetracker.com/profile/all/Zumito%20Kun/matches".

Definition lulau : rosterEntry :=
  mkRoster "Lulau22" "https://fortnitetracker.com/profile/all/Lulau22/matches".

(** Zumito Kun and Lulau22 each have a match stamped minute 20; Lulau22 has
    another at minute 30; the sweep runs at minute 61. *)
Definition tie_ops : list op :=
  [ Observe zumito (Some (mkInfo "a1" 1200000)) true;
    Observe lulau (Some (mkInfo "b1" 1200000)) true;
    Observe lulau (Some (mkInfo "b2" 1800000)) true;
    Sweep 3660000 ].

Definition cronoxis : rosterEntry :=
  mkRoster "Cronoxis" "https://fortnitetracker.com/profile/all/Cronoxis/matches".

(** A match at minute 100, a sweep 31 minutes later, then a match with a new
    id stamped at instant 0. *)
Definition backwards_ops : list op :=
  [ Observe cronoxis (Some (mkInfo "m1" 6000000)) true;
    Sweep 7860000;
    Observe cronoxis (Some (mkInfo "m2" 0)) true ].

(** Two matches ten minutes apart, then a sweep 31 minutes after the second. *)
Definition forward_ops : list op :=
  [ Observe cronoxis (Some (mkInfo "m1" 0)) true;
    Observe cronoxis (Some (mkInfo "m2" 600000)) true;
    Sweep 2460000 ].

(** Cronoxis plays at minutes 0 and 10, Zumito Kun at minute 100; the sweep
    of minute 41 closes both sessions; then Zumito Kun has a match with a new
    id stamped at instant 0, and Cronoxis a match at minute 60. *)
Definition two_session_ops : list op :=
  [ Observe cronoxis (Some (mkInfo "m1" 0)) true;
    Observe cronoxis (Some (mkInfo "m2" 600000)) true;
    Observe zumito (Some (mkInfo "a1" 6000000)) true;
    Sweep 2460000;
    Observe zumito (Some (mkInfo "a2" 0)) true;
    Observe cronoxis (Some (mkInfo "m3" 3600000)) true ].

Definition store_two_sessions : world :=
  match run two_session_ops (mkWorld (defaultState 0) NoFile) with
  | Some (_, w) => w
  | None => mkWorld (defaultState 0) NoFile
  end.

Local Close Scope string_scope.

(** * The rest of the script *)

(** ** Duration formatting *)

(** [String(n)] on an integer. *)
Definition String_of (n : Z) : string := DecimalString.NilZero.string_of_int (Z.to_int n).

Fixpoint replicate (n : nat) (c : Ascii.ascii) : string :=
  match n with
  | O => EmptyString
  | S n' => String c (replicate n' c)
  end.

(** [s.padStart(n, c)] for a one-character filler. *)
Definition padStart (n : nat) (c : Ascii.ascii) (s : string) : string :=
  String.append (replicate (n - String.length s) c) s.

Definition colon : string := String ":"%char EmptyString.

(** [fmtDuration] of the server: [Math.floor] of a quotient is [Z.div], [%]
    is the remainder with the sign of the dividend.  The source computes on
    doubles, the definition on unbounded integers.  For an integer [ms] with
    [0 <= ms < 2^53] the two agree: every value is held exactly, each
    rounded quotient has the floor of the exact one, and [String] prints
    plain decimal digits.  From 2^53 on the rounded quotient [ms / 1000] can
    reach the next integer, and a number from 10^21 on is printed with an
    exponent: there the definition no longer gives the text of the code. *)
Definition fmtDuration (ms : Z) : string :=
  let totalSec := ms / 1000 in
  let h := totalSec / 3600 in
  let m := Z.rem totalSec 3600 / 60 in
  let s := Z.rem totalSec 60 in
  String.append (padStart 2 "0"%char (String_of h))
    (String.append colon
       (String.append (padStart 2 "0"%char (String_of m))
          (String.append colon (padStart 2 "0"%char (String_of s))))).

(** [fmtDur] of the page: the same computation, within the same bound
    [0 <= ms < 2^53]. *)
Definition fmtDur (ms : Z) : string :=
  let sec := ms / 1000 in
  let h := sec / 3600 in
  let m := Z.rem sec 3600 / 60 in
  let s := Z.rem sec 60 in
  String.append (padStart 2 "0"%char (String_of h))
    (String.append colon
       (String.append (padStart 2 "0"%char (String_of m))
          (String.append colon (padStart 2 "0"%char (String_of s))))).

(** Reading a duration back: the three fields between the colons, as
    decimal numbers, in seconds. *)
Fixpoint splitColon (s : string) : list string :=
  match s with
  | EmptyString => [EmptyString]
  | String c s' =>
      if Ascii.eqb c ":" then EmptyString :: splitColon s'
      else match splitColon s' with
           | [] => [String c EmptyString]
           | f :: fs => String c f :: fs
           end
  end.

Definition readField (s : string) : option Z :=
  option_map Z.of_int (DecimalString.NilZero.int_of_string s).

Definition readDuration (s : string) : option Z :=
  match splitColon s with
  | [fh; fm; fs] =>
      match readField fh, readField fm, readField fs with
      | Some h, Some m, Some sec => Some (3600 * h + 60 * m + sec)
      | _, _, _ => None
      end
  | _ => None
  end.

Definition isDigit (c : Ascii.ascii) : bool :=
  (48 <=? Ascii.nat_of_ascii c)%nat && (Ascii.nat_of_ascii c <=? 57)%nat.

Fixpoint digits (s : string) : bool :=
  match s with
  | EmptyString => true
  | String c s' => isDigit c && digits s'
  end.

(** ** Vocabulary of the further properties *)

(** The last session of the log is open. *)
Definition last_open (p : player) : Prop :=
  exists l, lastOf (sessions p) = Some l /\ end_ l = None.

(** [lastMatchId] and [lastMatchAt] are set together, and a player with a
    session has them. *)
Definition pointers_ok (p : player) : Prop :=
  (lastMatchId p = None <-> lastMatchAt p = None) /\
  (sessions p <> [] -> lastMatchAt p <> None).

(** [latestMatch] is the last accepted observation of the player it names. *)
Definition latest_ok (s : state) : Prop :=
  match latestMatch s with
  | Some l =>
      exists p, lookup (lm_player l) (players s) = Some p /\
                lastMatchId p = Some (lm_matchId l) /\
                lastMatchAt p = Some (lm_at l)
  | None => Forall (fun p => lastMatchId p = None) (values (players s))
  end.

(** The log [ss'] continues the log [ss]: the closed sessions of [ss] are
    where they were, and the starts of [ss] are a prefix of those of [ss']. *)
Definition continues (ss ss' : list session) : Prop :=
  (forall i s, nth_error ss i = Some s -> end_ s <> None -> nth_error ss' i = Some s) /\
  (exists more, map start ss' = map start ss ++ more).

(** The key, the name and the URL of every entry, in order. *)
Definition identities (s : state) : list (string * string * string) :=
  map (fun kp => (fst kp, name (snd kp), url (snd kp))) (players s).

(** An entry with an open session and no [lastMatchAt], as a data file
    written by hand could hold. *)
Definition ungrounded : player :=
  mkPlayer "Cronoxis" "https://fortnitetracker.com/profile/all/Cronoxis/matches"
           None None [mkSession (Some 1200000) None].

Definition store_ungrounded : world :=
  mkWorld (mkState [("Cronoxis"%string, ungrounded)] None 0) NoFile.

(** The store [store_open] after a sweep at minute 31 and a new match at
    minute 60. *)
Definition later_ops : list op :=
  [ Sweep 1860000;
    Observe (mkRoster "Cronoxis" "") (Some (mkInfo "m2" 3600000)) true ].

Definition store_later : world :=
  match run later_ops store_open with
  | Some (_, w) => w
  | None => store_open
  end.



(** An instant at which a span starts or ends. *)
Definition boundary (sps : list span) (t : Z) : Prop :=
  exists sp, In sp sps /\ (t = sp_start sp \/ t = sp_end sp).

(** ** The page *)

(** [a.slice().reverse().slice(0, n)]: the rows of a table. *)
Definition newestFirst {A} (n : nat) (a : list A) : list A :=
  firstn n (rev a).

(** The rows of the overlaps table in [renderOverlaps]. *)
Definition overlapRows (o : overlaps) : list interval :=
  newestFirst 30 (ov_intervals o).

(** Whether [renderOverlaps] shows the "Total 2+" part. *)
Definition showsTotal (sum : summary) : bool := twoOrMoreMs sum >? 0.

(** ** Completeness of the sweep *)

Definition opening (sp : span) : event := mkEvent (sp_start sp) 1 (sp_who sp).
Definition closing (sp : span) : event := mkEvent (sp_end sp) (-1) (sp_who sp).

(** One span is over when the other begins. *)
Definition apart (a b : span) : Prop :=
  sp_end a <= sp_start b \/ sp_end b <= sp_start a.

(** The spans of one player name do not overlap each other. *)
Definition own_spans_apart (sps : list span) : Prop :=
  ForallOrdPairs (fun a b => sp_who a = sp_who b -> apart a b) sps.

(** The span lasts through the whole interval. *)
Definition covers (sp : span) (iv : interval) : Prop :=
  sp_start sp <= iv_start iv /\ iv_end iv <= sp_end sp.

(** The instant [x] falls in the span, its end excluded. *)
Definition holds (sp : span) (x : Z) : Prop := sp_start sp <= x < sp_end sp.

(** No span starts or ends strictly inside the interval. *)
Definition elementary (sps : list span) (iv : interval) : Prop :=
  forall t, boundary sps t -> t <= iv_start iv \/ iv_end iv <= t.

Definition interval_complete (sps : list span) (iv : interval) : Prop :=
  (forall sp, In sp sps -> covers sp iv -> In (sp_who sp) (iv_players iv)) /\
  elementary sps iv.

(** The state of the sweep between the events [done] and [todo]. *)
Definition sweep_complete (sps : list span) (done todo : list event)
                          (st : sweepState) : Prop :=
  (forall sp, In sp sps -> In (opening sp) done -> In (closing sp) todo ->
              In (sp_who sp) (active st)) /\
  (forall x, In x done -> exists p, prevT st = Some p /\ ev_t x <= p) /\
  Forall (interval_complete sps) (intervals st) /\
  (forall x spA spB p,
     In spA sps -> In spB sps -> sp_who spA <> sp_who spB ->
     holds spA x -> holds spB x -> prevT st = Some p -> x < p ->
     exists iv, In iv (intervals st) /\ iv_start iv <= x < iv_end iv).

(** The interval runs from the instant of one event to that of another,
    with no event strictly inside. *)
Definition between_events (all : list event) (iv : interval) : Prop :=
  (exists e1 e2, In e1 all /\ In e2 all /\
                 ev_t e1 = iv_start iv /\ ev_t e2 = iv_end iv) /\
  (forall e, In e all -> ev_t e <= iv_start iv \/ iv_end iv <= ev_t e).

Definition sweep_between (all done : list event) (st : sweepState) : Prop :=
  (forall x, In x done -> exists p, prevT st = Some p /\ ev_t x <= p) /\
  (forall p, prevT st = Some p -> exists x, In x done /\ ev_t x = p) /\
  Forall (between_events all) (intervals st).

(** ** Vocabulary of the load contract *)

(** Two entries that differ at most by their URL. *)
Definition same_data (p p' : player) : Prop :=
  name p' = name p /\ lastMatchId p' = lastMatchId p /\
  lastMatchAt p' = lastMatchAt p /\ sessions p' = sessions p.

(** A data file that holds a player outside the roster and a roster player
    under an old URL. *)
Definition old_file : dataFile :=
  Stored (mkState
            [ ("Ghost"%string,
               mkPlayer "Ghost" "https://example.org/ghost" (Some "g1"%string)
                        (Some 1000) [mkSession (Some 1000) (Some 1000)]);
              ("Cronoxis"%string,
               mkPlayer "Cronoxis" "https://example.org/old" (Some "m1"%string)
                        (Some 0) [mkSession (Some 0) None]) ]
            None 7).

(** ** The scrape *)

(** What the loop of [page.evaluate] reads off one link: the trimmed
    [datetime] attribute of the [time] element found for it and the id cut
    out of its [href], each possibly [undefined]. *)
Record link := mkLink { l_dt : option string; l_idMatch : option string }.

(** Truthiness of a string that may be [undefined]. *)
Definition truthy (s : option string) : bool :=
  match s with
  | Some x => negb (String.eqb x EmptyString)
  | None => false
  end.

Record bestMatch := mkBest { ts : Z; b_atISO : Z; b_matchId : string }.

(** What the page load of one attempt comes to: an exception somewhere in
    the [try] block, or the links the evaluation went through. *)
Inductive pageLoad :=
| Threw
| Loaded (links : list link).

Section Scrape.
(** [Date.parse], [None] standing for [NaN]. *)
Variable Date_parse : string -> option Z.

(** One turn of the loop over the links. *)
Definition pickStep (best : option bestMatch) (a : link) : option bestMatch :=
  if negb (truthy (l_dt a)) || negb (truthy (l_idMatch a)) then best
  else
    match l_dt a, l_idMatch a with
    | Some dt, Some idMatch =>
        match Date_parse dt with
        | Some t =>
            match best with
            | None => Some (mkBest t t idMatch)
            | Some b => if t >? ts b then Some (mkBest t t idMatch) else best
            end
        | None => best
        end
    | _, _ => best
    end.

Definition evaluateLinks (links : list link) : option matchInfo :=
  match fold_left pickStep links None with
  | Some b => Some (mkInfo (b_matchId b) (b_atISO b))
  | None => None
  end.

(** The attempts [attempt], [attempt + 1], ... while [left] remain.  The
    check [info?.matchId && info?.atISO] is the one on [matchId]: [atISO] is
    the text of [toISOString], never empty. *)
Fixpoint attempts (left : nat) (attempt : nat) (page : nat -> pageLoad)
  : option matchInfo :=
  match left with
  | O => None
  | S left' =>
      match page attempt with
      | Loaded links =>
          match evaluateLinks links with
          | Some info =>
              if negb (String.eqb (matchId info) EmptyString)
              then Some info
              else attempts left' (S attempt) page
          | None => attempts left' (S attempt) page
          end
      | Threw => attempts left' (S attempt) page
      end
  end.

(** [scrapeLatestMatch]: attempts 1 to 3. *)
Definition scrapeLatestMatch (page : nat -> pageLoad) : option matchInfo :=
  attempts 3 1 page.

(** What a link offers: its instant and id when both strings are there and
    the date parses. *)
Definition candidate (a : link) : option (Z * string) :=
  match l_dt a, l_idMatch a with
  | Some dt, Some idMatch =>
      if truthy (Some dt) && truthy (Some idMatch)
      then option_map (fun t => (t, idMatch)) (Date_parse dt)
      else None
  | _, _ => None
  end.

(** The outcome of one attempt. *)
Definition attemptResult (page : nat -> pageLoad) (k : nat) : option matchInfo :=
  match page k with
  | Loaded links => evaluateLinks links
  | Threw => None
  end.
End Scrape.

(** A stand-in for [Date.parse] on the sample links: the length of the text
    as the instant, and [NaN] on the text "x". *)
Definition sample_parse (s : string) : option Z :=
  if String.eqb s "x" then None else Some (Z.of_nat (String.length s)).

Definition sample_links : list link :=
  [ mkLink (Some "aa"%string) (Some "m1"%string);
    mkLink (Some "x"%string) (Some "m2"%string);
    mkLink (Some "aaaa"%string) (Some "m3"%string);
    mkLink None (Some "m4"%string);
    mkLink (Some "bbbb"%string) (Some "m5"%string);
    mkLink (Some "aaaaaaaa"%string) (Some ""%string) ].

Definition sample_page (k : nat) : pageLoad :=
  match k with
  | 1%nat => Threw
  | 2%nat => Loaded [mkLink (Some "x"%string) (Some "m2"%string)]
  | _ => Loaded sample_links
  end.

(** The pick [res] out of the links [l]: nothing when no link is a
    candidate, otherwise the first of the candidates with the latest
    instant. *)
Definition picked (parse : string -> option Z) (l : list link)
                  (res : option bestMatch) : Prop :=
  match res with
  | None => forall a, In a l -> candidate parse a = None
  | Some b =>
      b_atISO b = ts b /\
      exists pre a post,
        l = pre ++ a :: post /\
        candidate parse a = Some (ts b, b_matchId b) /\
        (forall x t i, In x pre -> candidate parse x = Some (t, i) -> t < ts b) /\
        (forall x t i, In x post -> candidate parse x = Some (t, i) -> t <= ts b)
  end.
(** * Properties *)

(** ** Arithmetic of the inactivity test *)

Lemma minutes_within_window (a b : Z) :
  Qle_bool (Qabs ((b - a) # 60000)) (inject_Z INACTIVITY_MINUTES) = true
  <-> Z.abs (b - a) <= windowMs.
Proof.
  rewrite Qle_bool_iff.
  unfold Qabs, Qle, inject_Z, windowMs, INACTIVITY_MINUTES; simpl.
  lia.
Qed.

Lemma minutes_beyond_window (a b : Z) :
  Qgt_bool (Qabs ((b - a) # 60000)) (inject_Z INACTIVITY_MINUTES) = true
  <-> windowMs < Z.abs (b - a).
Proof.
  unfold Qgt_bool. rewrite negb_true_iff, <- not_true_iff_false.
  rewrite minutes_within_window. lia.
Qed.

(** ** Lists and the player table *)

Lemma lastOf_nil : lastOf [] = None.
Proof. reflexivity. Qed.

Lemma lastOf_snoc (ss : list session) (s : session) : lastOf (ss ++ [s]) = Some s.
Proof.
  unfold lastOf. rewrite length_app; simpl.
  replace (List.length ss + 1 - 1)%nat with (List.length ss) by lia.
  rewrite nth_error_app2 by lia.
  now rewrite Nat.sub_diag.
Qed.

Lemma lastOf_cases (ss : list session) :
  (ss = [] /\ lastOf ss = None) \/
  (exists pre s, ss = pre ++ [s] /\ lastOf ss = Some s).
Proof.
  destruct ss as [|x ss'].
  - left; split; reflexivity.
  - right. destruct (@exists_last _ (x :: ss')) as [pre [s E]]; [discriminate|].
    exists pre, s. rewrite E. split; [reflexivity | apply lastOf_snoc].
Qed.

Lemma lookup_update_same k f l :
  lookup k (update k f l) = option_map f (lookup k l).
Proof.
  induction l as [|[k' p] l IH]; simpl; [reflexivity|].
  destruct (String.eqb k k') eqn:E; simpl; rewrite E; [reflexivity | exact IH].
Qed.

Lemma lookup_update_other k k' f l :
  k <> k' -> lookup k (update k' f l) = lookup k l.
Proof.
  intros N. induction l as [|[k0 p] l IH]; simpl; [reflexivity|].
  destruct (String.eqb k' k0) eqn:E; simpl.
  - apply String.eqb_eq in E; subst k0.
    destruct (String.eqb k k') eqn:E'; [apply String.eqb_eq in E'; contradiction | reflexivity].
  - destruct (String.eqb k k0); [reflexivity | exact IH].
Qed.

Lemma lookup_map_values k g l :
  lookup k (map (fun kp => (fst kp, g (snd kp))) l) = option_map g (lookup k l).
Proof.
  induction l as [|[k' p] l IH]; simpl; [reflexivity|].
  destruct (String.eqb k k'); [reflexivity | exact IH].
Qed.

Lemma update_update k f g l :
  update k g (update k f l) = update k (fun p => g (f p)) l.
Proof.
  induction l as [|[k' p] l IH]; simpl; [reflexivity|].
  destruct (String.eqb k k') eqn:E; simpl; rewrite E; [reflexivity | now rewrite IH].
Qed.

Lemma update_ext_at k f g l p :
  lookup k l = Some p -> f p = g p -> update k f l = update k g l.
Proof.
  induction l as [|[k' q] l IH]; simpl; intros L E; [reflexivity|].
  destruct (String.eqb k k'); [|now rewrite IH].
  injection L as ->. now rewrite E.
Qed.

Lemma lookup_In k l p : lookup k l = Some p -> In p (values l).
Proof.
  induction l as [|[k' q] l IH]; simpl; [discriminate|].
  destruct (String.eqb k k'); intros H.
  - left. congruence.
  - right. auto.
Qed.

Lemma Forall_values_update (P : player -> Prop) k f l :
  (forall p, P p -> P (f p)) ->
  Forall P (values l) -> Forall P (values (update k f l)).
Proof.
  intros Hf. induction l as [|[k' p] l IH]; simpl; intros H; [constructor|].
  inversion H; subst.
  destruct (String.eqb k k'); simpl; constructor; auto.
Qed.

Lemma Forall_values_update_at (P : player -> Prop) k f l p :
  lookup k l = Some p -> P (f p) ->
  Forall P (values l) -> Forall P (values (update k f l)).
Proof.
  induction l as [|[k' q] l IH]; simpl; intros L Hp H; [constructor|].
  inversion H; subst.
  destruct (String.eqb k k'); simpl; constructor; auto.
  congruence.
Qed.

Lemma Forall_values_map (P : player -> Prop) g l :
  (forall p, P p -> P (g p)) ->
  Forall P (values l) ->
  Forall P (values (map (fun kp => (fst kp, g (snd kp))) l)).
Proof.
  intros Hg. induction l as [|[k' p] l IH]; simpl; intros H; [constructor|].
  inversion H; subst. constructor; auto.
Qed.

(** ** What each operation does to the store *)

Lemma bind_some {A B} (m : M A) (k : A -> M B) w a w' :
  m w = Some (a, w') -> bind m k w = k a w'.
Proof. intros E. unfold bind. now rewrite E. Qed.

Lemma bind_none {A B} (m : M A) (k : A -> M B) w :
  m w = None -> bind m k w = None.
Proof. intros E. unfold bind. now rewrite E. Qed.

Lemma getPlayer_some k w p :
  lookup k (players (mem w)) = Some p -> getPlayer k w = Some (p, w).
Proof. intros L. unfold getPlayer, bind, getState. now rewrite L. Qed.

Lemma getPlayer_none k w :
  lookup k (players (mem w)) = None -> getPlayer k w = None.
Proof. intros L. unfold getPlayer, bind, getState. now rewrite L. Qed.

Lemma modifyPlayer_some k f w p :
  lookup k (players (mem w)) = Some p ->
  modifyPlayer k f w =
  Some (tt, mkWorld (mkState (update k f (players (mem w)))
                             (latestMatch (mem w)) (createdAt (mem w)))
                    (disk w)).
Proof. intros L. unfold modifyPlayer, bind, getState. now rewrite L. Qed.

Lemma ensureSession_some k a w p :
  lookup k (players (mem w)) = Some p ->
  ensureSessionOnNewMatch k a w =
  Some (tt, match lastOf (sessions p) with
            | Some (mkSession _ None) => w
            | _ => mkWorld (mkState (update k (push_session (mkSession (Some a) None))
                                            (players (mem w)))
                                    (latestMatch (mem w)) (createdAt (mem w)))
                           (disk w)
            end).
Proof.
  intros L. unfold ensureSessionOnNewMatch.
  rewrite (bind_some _ _ _ _ _ (getPlayer_some _ _ _ L)).
  destruct (lastOf (sessions p)) as [[st [e|]]|];
    try reflexivity; apply (modifyPlayer_some _ _ _ _ L).
Qed.

Lemma scanPlayer_absent r i ok w :
  lookup (r_name r) (players (mem w)) = None ->
  scanPlayer r (Some i) ok w = None.
Proof.
  intros L. unfold scanPlayer. apply bind_none, getPlayer_none, L.
Qed.

Lemma scanPlayer_duplicate r i ok w p :
  lookup (r_name r) (players (mem w)) = Some p ->
  lastMatchId p = Some (matchId i) ->
  scanPlayer r (Some i) ok w = Some (tt, w).
Proof.
  intros L E. unfold scanPlayer.
  rewrite (bind_some _ _ _ _ _ (getPlayer_some _ _ _ L)).
  rewrite E; simpl. now rewrite String.eqb_refl.
Qed.

Lemma option_string_eqb_eq a b : option_string_eqb a b = true <-> a = b.
Proof.
  destruct a as [x|], b as [y|]; simpl; try (split; congruence).
  rewrite String.eqb_eq. split; congruence.
Qed.

Lemma scanPlayer_accepted r i ok w p :
  lookup (r_name r) (players (mem w)) = Some p ->
  lastMatchId p <> Some (matchId i) ->
  scanPlayer r (Some i) ok w = Some (tt, acceptedWorld r i ok w).
Proof.
  intros L N.
  assert (D : option_string_eqb (Some (matchId i)) (lastMatchId p) = false).
  { apply not_true_iff_false. rewrite option_string_eqb_eq. congruence. }
  unfold scanPlayer.
  rewrite (bind_some _ _ _ _ _ (getPlayer_some _ _ _ L)).
  cbv zeta. rewrite D. cbn [negb].
  rewrite (bind_some _ _ _ _ _ (modifyPlayer_some _ _ _ _ L)).
  erewrite bind_some
    by (apply modifyPlayer_some with (p := set_lastMatchId (matchId i) p);
        cbn [mem players]; now rewrite lookup_update_same, L).
  erewrite bind_some
    by (apply ensureSession_some
          with (p := set_lastMatchAt (atISO i) (set_lastMatchId (matchId i) p));
        cbn [mem players]; now rewrite !lookup_update_same, L).
  unfold setLatestMatch, saveState, bind, getState, putState, acceptedWorld.
  cbn [sessions set_lastMatchAt set_lastMatchId mem players latestMatch createdAt disk].
  destruct (lastOf (sessions p)) as [[st [e|]]|] eqn:EL;
    cbn [mem players latestMatch createdAt disk];
    rewrite !update_update;
    rewrite (update_ext_at (r_name r) _ (acceptMatch i) _ p L)
      by (unfold acceptMatch; now rewrite EL);
    destruct ok; reflexivity.
Qed.

Lemma closeInactive_run now w :
  closeInactiveSessions now w =
  Some (tt, mkWorld (mkState (map (fun kp => (fst kp, closePlayer now (snd kp)))
                                  (players (mem w)))
                             (latestMatch (mem w)) (createdAt (mem w)))
                    (disk w)).
Proof. reflexivity. Qed.

Lemma removelast_snoc {A} (l : list A) (x : A) : removelast (l ++ [x]) = l.
Proof. apply removelast_last. Qed.

Lemma set_last_end_snoc e p ss s :
  sessions p = ss ++ [s] ->
  set_last_end e p =
  mkPlayer (name p) (url p) (lastMatchId p) (lastMatchAt p)
           (ss ++ [mkSession (start s) (Some e)]).
Proof.
  intros E. unfold set_last_end. rewrite E, lastOf_snoc, removelast_snoc.
  reflexivity.
Qed.

Lemma closePlayer_stale now p ss s T :
  sessions p = ss ++ [s] -> end_ s = None -> lastMatchAt p = Some T ->
  windowMs < Z.abs (now - T) ->
  closePlayer now p =
  mkPlayer (name p) (url p) (lastMatchId p) (Some T)
           (ss ++ [mkSession (start s) (Some T)]).
Proof.
  intros E O L W. unfold closePlayer.
  rewrite E, lastOf_snoc. destruct s as [a e]; simpl in O; subst e.
  rewrite L. unfold minutesBetween, isoToDT.
  rewrite (proj2 (minutes_beyond_window T now) W).
  rewrite (set_last_end_snoc T p ss _ E), L. reflexivity.
Qed.

(** ** The inactivity sweep *)

(** C3. When the last session of a player is open, [lastMatchAt] is [T] and
    the sweep reads a clock with [now - T] beyond the window, the sweep
    succeeds and leaves that session closed with [end = T]; the earlier
    sessions, the start of the session and the two pointers are as before. *)
Theorem closeInactive_ends_at_last_match :
  forall (now : Z) (w : world) (k : string) (p : player)
         (ss : list session) (s : session) (T : Z),
    lookup k (players (mem w)) = Some p ->
    sessions p = ss ++ [s] ->
    end_ s = None ->
    lastMatchAt p = Some T ->
    now - T > windowMs ->
    exists w',
      closeInactiveSessions now w = Some (tt, w') /\
      lookup k (players (mem w')) =
      Some (mkPlayer (name p) (url p) (lastMatchId p) (Some T)
                     (ss ++ [mkSession (start s) (Some T)])).
Proof.
  intros now w k p ss s T L E O A W.
  eexists. split; [apply closeInactive_run|].
  cbn [mem players]. rewrite lookup_map_values, L. cbn [option_map].
  f_equal. apply closePlayer_stale; auto. lia.
Qed.

Lemma closeInactive_ends_at_last_match_witness :
  exists w',
    closeInactiveSessions 1860000 store_open = Some (tt, w') /\
    lookup "Cronoxis" (players (mem w')) =
    Some (mkPlayer (name cronoxis_open) (url cronoxis_open)
                   (lastMatchId cronoxis_open) (Some 0)
                   ([] ++ [mkSession (start (mkSession (Some 0) None)) (Some 0)])).
Proof.
  apply (closeInactive_ends_at_last_match
           1860000 store_open "Cronoxis" cronoxis_open [] (mkSession (Some 0) None) 0);
    reflexivity.
Defined.

(** ** Dedupe by match id *)

(** C6. An observation whose [matchId] is the stored [lastMatchId] changes
    nothing: the loop body returns with the same store (every player, the
    latest match) and the same data file. *)
Theorem scanPlayer_same_match_unchanged :
  forall (r : rosterEntry) (i : matchInfo) (ok : bool) (w : world) (p : player),
    lookup (r_name r) (players (mem w)) = Some p ->
    lastMatchId p = Some (matchId i) ->
    scanPlayer r (Some i) ok w = Some (tt, w).
Proof.
  intros r i ok w p L E. unfold scanPlayer.
  rewrite (bind_some _ _ _ _ _ (getPlayer_some _ _ _ L)).
  cbv zeta. rewrite E. cbn [option_string_eqb].
  now rewrite String.eqb_refl.
Qed.

Lemma scanPlayer_same_match_unchanged_witness :
  scanPlayer (mkRoster "Cronoxis" "") (Some (mkInfo "m1" 600000)) true store_open
  = Some (tt, store_open).
Proof.
  apply (scanPlayer_same_match_unchanged
           (mkRoster "Cronoxis" "") (mkInfo "m1" 600000) true store_open cronoxis_open);
    reflexivity.
Defined.

(** ** Playing now *)

Lemma isPlayingNow_spec now p :
  isPlayingNow now p = true <->
  exists T, lastMatchAt p = Some T /\ Z.abs (now - T) <= windowMs.
Proof.
  unfold isPlayingNow, minutesBetween, isoToDT.
  destruct (lastMatchAt p) as [T|].
  - rewrite minutes_within_window. split.
    + intros H. exists T. auto.
    + intros [T' [E H]]. congruence.
  - split; [discriminate | intros [T [E _]]; discriminate].
Qed.

(** C7, as the code has it. [isPlayingNow] is true exactly when
    [lastMatchAt] is present and the distance between the clock and it, in
    either direction, is at most the window; it is false when [lastMatchAt]
    is [null]. *)
Theorem isPlayingNow_iff_within_window :
  forall (now : Z) (p : player),
    (isPlayingNow now p = true <->
     exists T, lastMatchAt p = Some T /\ Z.abs (now - T) <= windowMs) /\
    (lastMatchAt p = None -> isPlayingNow now p = false).
Proof.
  intros now p. split; [apply isPlayingNow_spec|].
  intros E. unfold isPlayingNow. now rewrite E.
Qed.

(** C7 as stated fails on a match stamped ahead of the clock: [now - T] is
    negative, hence at most the window, and the predicate is false. *)
Lemma isPlayingNow_signed_difference_fails :
  ~ (isPlayingNow 0 ahead_of_clock = true <->
     exists T, lastMatchAt ahead_of_clock = Some T /\ 0 - T <= windowMs).
Proof.
  intros [_ H].
  assert (F : isPlayingNow 0 ahead_of_clock = false) by reflexivity.
  rewrite H in F; [discriminate|].
  exists 1860000. split; [reflexivity|]. unfold windowMs, INACTIVITY_MINUTES. lia.
Qed.

(** ** The session log under runs of the operations *)

Section SortedSnoc.
Context {A : Type} (R : A -> A -> Prop).

Lemma StronglySorted_snoc l x :
  StronglySorted R l -> Forall (fun y => R y x) l -> StronglySorted R (l ++ [x]).
Proof.
  induction 1 as [|y l S IH F]; intros H; simpl.
  - repeat constructor.
  - inversion H; subst. constructor; [auto|].
    apply Forall_app. split; [assumption | repeat constructor; assumption].
Qed.

Lemma StronglySorted_snoc_inv l x :
  StronglySorted R (l ++ [x]) -> StronglySorted R l /\ Forall (fun y => R y x) l.
Proof.
  induction l as [|y l IH]; simpl; intros H.
  - split; constructor.
  - inversion H as [|? ? S F]; subst.
    destruct (IH S) as [S' F'].
    apply Forall_app in F. destruct F as [F1 F2].
    split; constructor; auto.
    now inversion F2.
Qed.
End SortedSnoc.

Lemma one_open_last_push ss s :
  one_open_last ss ->
  (forall l, lastOf ss = Some l -> closed l) ->
  one_open_last (ss ++ [s]).
Proof.
  unfold one_open_last. rewrite removelast_snoc.
  destruct (lastOf_cases ss) as [[-> _]|[pre [l [-> E]]]]; intros H C.
  - constructor.
  - rewrite removelast_snoc in H. apply Forall_app. split; [assumption|].
    repeat constructor. auto.
Qed.

Lemma acceptMatch_sessions i p :
  sessions (acceptMatch i p) = sessions p /\
    (exists l, lastOf (sessions p) = Some l /\ end_ l = None)
  \/
  sessions (acceptMatch i p) = sessions p ++ [mkSession (Some (atISO i)) None] /\
    (forall l, lastOf (sessions p) = Some l -> closed l).
Proof.
  unfold acceptMatch.
  destruct (lastOf (sessions p)) as [[a [e|]]|]; simpl.
  - right. split; [reflexivity|]. intros l [= <-]. unfold closed; simpl. discriminate.
  - left. split; [reflexivity|]. eexists; split; reflexivity.
  - right. split; [reflexivity|]. discriminate.
Qed.

Lemma acceptMatch_lastMatchAt i p : lastMatchAt (acceptMatch i p) = Some (atISO i).
Proof.
  unfold acceptMatch. destruct (lastOf (sessions p)) as [[a [e|]]|]; reflexivity.
Qed.

Lemma closePlayer_cases now p :
  closePlayer now p = p \/
  exists pre l e,
    sessions p = pre ++ [l] /\ end_ l = None /\
    (lastMatchAt p = None \/ lastMatchAt p = Some e) /\
    closePlayer now p =
    mkPlayer (name p) (url p) (lastMatchId p) (lastMatchAt p)
             (pre ++ [mkSession (start l) (Some e)]).
Proof.
  unfold closePlayer.
  destruct (lastOf_cases (sessions p)) as [[E ->]|[pre [l [E ->]]]]; [now left|].
  destruct l as [a [e|]]; [now left|].
  destruct (lastMatchAt p) as [T|] eqn:L.
  - destruct (minutesBetween (Some T) (Some now)) as [mins|]; [|now left].
    destruct (Qgt_bool mins (inject_Z INACTIVITY_MINUTES)); [|now left].
    right. exists pre, (mkSession a None), T.
    rewrite (set_last_end_snoc T p pre _ E), L. auto.
  - right. exists pre, (mkSession a None), now.
    rewrite (set_last_end_snoc now p pre _ E), L. auto.
Qed.

Lemma acceptMatch_one_open i p :
  one_open_last (sessions p) -> one_open_last (sessions (acceptMatch i p)).
Proof.
  intros H. destruct (acceptMatch_sessions i p) as [[-> _]|[-> C]]; [assumption|].
  now apply one_open_last_push.
Qed.

Lemma closePlayer_one_open now p :
  one_open_last (sessions p) -> one_open_last (sessions (closePlayer now p)).
Proof.
  intros H. destruct (closePlayer_cases now p) as [->|[pre [l [e [E [_ [_ ->]]]]]]];
    [assumption|].
  unfold one_open_last in *. cbn [sessions].
  rewrite E in H. now rewrite removelast_snoc in *.
Qed.

Lemma non_overlapping_init_closed pre l :
  non_overlapping (pre ++ [l]) -> Forall closed pre.
Proof.
  intros H. apply StronglySorted_snoc_inv in H. destruct H as [_ F].
  eapply Forall_impl; [|exact F].
  intros s [e [b [E _]]]. unfold closed. congruence.
Qed.

Lemma bounded_by_le T T' s : T <= T' -> bounded_by T s -> bounded_by T' s.
Proof.
  intros L [Ha He]. split; intros x E; [specialize (Ha x E) | specialize (He x E)]; lia.
Qed.

Lemma acceptMatch_ok i p :
  (forall T, lastMatchAt p = Some T -> T <= atISO i) ->
  player_ok p -> player_ok (acceptMatch i p).
Proof.
  intros Mono (WF & NO & B).
  assert (B' : Forall (bounded_by (atISO i)) (sessions p)).
  { destruct B as [->|[T [L F]]]; [constructor|].
    eapply Forall_impl; [|exact F]. intros s. apply bounded_by_le. auto. }
  unfold player_ok. rewrite acceptMatch_lastMatchAt.
  destruct (acceptMatch_sessions i p) as [[-> _]|[-> C]].
  - repeat split; auto. right. eauto.
  - repeat split.
    + apply Forall_app. split; [assumption|].
      repeat constructor. exists (atISO i). split; [reflexivity | discriminate].
    + apply StronglySorted_snoc; [assumption|].
      destruct (lastOf_cases (sessions p)) as [[E _]|[pre [l [E EL]]]].
      * rewrite E. constructor.
      * assert (CL : Forall closed (sessions p)).
        { rewrite E. apply Forall_app. split.
          - apply non_overlapping_init_closed with l. now rewrite <- E.
          - repeat constructor. auto. }
        rewrite Forall_forall in *. intros s IN.
        specialize (CL s IN). specialize (B' s IN). destruct B' as [_ He].
        unfold closed in CL. destruct (end_ s) as [e|] eqn:Ee; [|contradiction].
        exists e, (atISO i). repeat split; auto.
    + right. exists (atISO i). split; [reflexivity|].
      apply Forall_app. split; [assumption|].
      repeat constructor; simpl; intros x [= <-]. lia.
Qed.

Lemma closePlayer_ok now p : player_ok p -> player_ok (closePlayer now p).
Proof.
  intros OK.
  destruct (closePlayer_cases now p) as [->|[pre [l [e [E [O [L ->]]]]]]];
    [assumption|].
  destruct OK as (WF & NO & B). rewrite E in *.
  destruct B as [B|[T [LT B]]]; [destruct pre; discriminate|].
  assert (e = T) by (destruct L; congruence). subst e.
  apply Forall_app in WF. destruct WF as [WFp WFl].
  apply Forall_app in B. destruct B as [Bp Bl].
  inversion WFl as [|? ? [a [Sa _]] _]; subst.
  inversion Bl as [|? ? [Ba _] _]; subst.
  apply StronglySorted_snoc_inv in NO. destruct NO as [NOp NOl].
  unfold player_ok; cbn [sessions lastMatchAt]. repeat split.
  - apply Forall_app. split; [assumption|].
    repeat constructor. exists a. split; [assumption|].
    simpl. intros x [= <-]. auto.
  - apply StronglySorted_snoc; [assumption|].
    eapply Forall_impl; [|exact NOl].
    intros s (x & b & Ex & Sb & Le). exists x, b. auto.
  - right. exists T. split; [assumption|].
    apply Forall_app. split; [assumption|].
    repeat constructor; simpl; [auto | intros x [= <-]; lia].
Qed.

Lemma player_ok_chronological p :
  player_ok p -> chronological (sessions p).
Proof.
  intros (WF & NO & _). unfold chronological.
  induction NO as [|s l S IH F]; [constructor|].
  inversion WF as [|? ? [a [Sa Le]] WFl]; subst.
  constructor; [auto|].
  eapply Forall_impl; [|exact F].
  intros y (e & b & Ee & Sb & Leb). exists a, b. repeat split; auto.
  specialize (Le e Ee). lia.
Qed.

(** What one operation does to the player table. *)
Lemma step_cases o w w' :
  step o w = Some (tt, w') ->
  players (mem w') = players (mem w)
  \/ (exists r i ok p,
        o = Observe r (Some i) ok /\
        lookup (r_name r) (players (mem w)) = Some p /\
        lastMatchId p <> Some (matchId i) /\
        players (mem w') = update (r_name r) (acceptMatch i) (players (mem w)))
  \/ (exists now,
        o = Sweep now /\
        players (mem w') =
        map (fun kp => (fst kp, closePlayer now (snd kp))) (players (mem w))).
Proof.
  destruct o as [r [i|] ok|now|ok]; cbn [step].
  - destruct (lookup (r_name r) (players (mem w))) as [p|] eqn:L.
    + destruct (option_string_eqb (Some (matchId i)) (lastMatchId p)) eqn:D.
      * apply option_string_eqb_eq in D.
        rewrite (scanPlayer_duplicate r i ok w p L (eq_sym D)).
        intros [= <-]. now left.
      * assert (N : lastMatchId p <> Some (matchId i)).
        { intros E. rewrite E in D. simpl in D. rewrite String.eqb_refl in D. discriminate. }
        rewrite (scanPlayer_accepted r i ok w p L N).
        intros [= <-]. right; left. exists r, i, ok, p. auto.
    + rewrite (scanPlayer_absent r i ok w L). discriminate.
  - intros [= <-]. now left.
  - rewrite closeInactive_run. intros [= <-]. right; right. eauto.
  - unfold saveState. intros [= <-]. left. now destruct ok.
Qed.

Lemma step_total o w :
  roster_present (mem w) -> on_roster o -> exists w', step o w = Some (tt, w').
Proof.
  intros RP OR. destruct o as [r [i|] ok|now|ok]; cbn [step].
  - destruct (lookup (r_name r) (players (mem w))) as [p|] eqn:L.
    + destruct (option_string_eqb (Some (matchId i)) (lastMatchId p)) eqn:D.
      * apply option_string_eqb_eq in D.
        rewrite (scanPlayer_duplicate r i ok w p L (eq_sym D)). eauto.
      * assert (N : lastMatchId p <> Some (matchId i)).
        { intros E. rewrite E in D. simpl in D. rewrite String.eqb_refl in D. discriminate. }
        rewrite (scanPlayer_accepted r i ok w p L N). eauto.
    + exfalso. exact (RP r OR L).
  - exists w. reflexivity.
  - rewrite closeInactive_run. eauto.
  - unfold saveState. eauto.
Qed.

Lemma step_roster_present o w w' :
  step o w = Some (tt, w') -> roster_present (mem w) -> roster_present (mem w').
Proof.
  intros S RP r IN. specialize (RP r IN).
  destruct (step_cases o w w' S) as [E|[(r' & i & ok & p & _ & L & _ & E)|(now & _ & E)]];
    rewrite E.
  - assumption.
  - destruct (String.eqb_spec (r_name r) (r_name r')) as [Q|Q].
    + rewrite Q, lookup_update_same, L. discriminate.
    + now rewrite lookup_update_other.
  - rewrite lookup_map_values.
    destruct (lookup (r_name r) (players (mem w))); [discriminate | contradiction].
Qed.

Lemma step_one_open o w w' :
  step o w = Some (tt, w') ->
  all_players (fun p => one_open_last (sessions p)) w ->
  all_players (fun p => one_open_last (sessions p)) w'.
Proof.
  intros S H. unfold all_players in *.
  destruct (step_cases o w w' S) as [E|[(r' & i & ok & p & _ & L & _ & E)|(now & _ & E)]];
    rewrite E.
  - assumption.
  - apply Forall_values_update; [|assumption]. intros q. apply acceptMatch_one_open.
  - apply Forall_values_map; [|assumption]. intros q. apply closePlayer_one_open.
Qed.

Lemma step_player_ok o w w' :
  step o w = Some (tt, w') ->
  not_backwards w o = true ->
  all_players player_ok w -> all_players player_ok w'.
Proof.
  intros S NB H. unfold all_players in *.
  destruct (step_cases o w w' S) as [E|[(r' & i & ok & p & -> & L & N & E)|(now & _ & E)]];
    rewrite E.
  - assumption.
  - apply Forall_values_update_at with p; [assumption| |assumption].
    apply acceptMatch_ok.
    + intros T LT. cbn [not_backwards] in NB. rewrite L, LT in NB.
      apply orb_true_iff in NB. destruct NB as [D|D].
      * apply option_string_eqb_eq in D. congruence.
      * now apply Z.leb_le.
    + rewrite Forall_forall in H. apply H. eapply lookup_In; eassumption.
  - apply Forall_values_map; [|assumption]. intros q. apply closePlayer_ok.
Qed.

Lemma run_cons o ops w w1 :
  step o w = Some (tt, w1) -> run (o :: ops) w = run ops w1.
Proof. intros S. simpl. now rewrite (bind_some _ _ _ _ _ S). Qed.


Lemma run_invariant ops :
  forall w,
    roster_present (mem w) -> Forall on_roster ops ->
    exists w',
      run ops w = Some (tt, w') /\
      roster_present (mem w') /\
      (all_players (fun p => one_open_last (sessions p)) w ->
       all_players (fun p => one_open_last (sessions p)) w') /\
      (in_order ops w = true ->
       all_players player_ok w -> all_players player_ok w').
Proof.
  induction ops as [|o ops IH]; intros w RP OR.
  - exists w. repeat split; auto.
  - inversion OR as [|? ? Oo Oops]; subst.
    destruct (step_total o w RP Oo) as [w1 S].
    destruct (IH w1 (step_roster_present _ _ _ S RP) Oops) as (w' & R & RP' & I1 & I2).
    exists w'. rewrite (run_cons _ _ _ _ S). repeat split; auto.
    + intros H. apply I1. eapply step_one_open; eassumption.
    + simpl. rewrite S. intros IO H.
      apply andb_true_iff in IO. destruct IO as [NB IO].
      apply I2; [assumption|]. eapply step_player_ok; eassumption.
Qed.

Lemma defaultState_roster_present c : roster_present (defaultState c).
Proof.
  intros r IN. unfold defaultState; cbn [players].
  revert IN. generalize PLAYERS as rs.
  induction rs as [|r' rs IH]; simpl; [contradiction|].
  intros [->|IN].
  - now rewrite String.eqb_refl.
  - destruct (String.eqb (r_name r) (r_name r')); [discriminate | auto].
Qed.

Lemma defaultState_no_sessions c p :
  In p (values (players (defaultState c))) -> sessions p = [].
Proof.
  unfold defaultState, values; cbn [players]. rewrite map_map.
  intros IN. apply in_map_iff in IN. destruct IN as [r [<- _]]. reflexivity.
Qed.

(** ** Sorting the events *)

Lemma ev_le_spec a b :
  ev_le a b <-> ev_t a < ev_t b \/ (ev_t a = ev_t b /\ ev_type a <= ev_type b).
Proof.
  unfold ev_le, compareEvents.
  destruct (Z.eqb_spec (ev_t a) (ev_t b)); lia.
Qed.

Lemma ev_le_trans a b c : ev_le a b -> ev_le b c -> ev_le a c.
Proof. rewrite !ev_le_spec. lia. Qed.

Lemma ev_le_total a b : ev_le a b \/ ev_le b a.
Proof. rewrite !ev_le_spec. lia. Qed.

Lemma insertEvent_In x l z : In z (insertEvent x l) <-> z = x \/ In z l.
Proof.
  induction l as [|y l IH]; simpl.
  - intuition.
  - destruct (compareEvents x y <=? 0); simpl; [intuition|].
    rewrite IH. intuition.
Qed.

Lemma sortEvents_In l z : In z (sortEvents l) <-> In z l.
Proof.
  induction l as [|x l IH]; simpl; [reflexivity|].
  rewrite insertEvent_In, IH. intuition.
Qed.

Lemma insertEvent_sorted x l :
  StronglySorted ev_le l -> StronglySorted ev_le (insertEvent x l).
Proof.
  induction 1 as [|y l S IH F]; simpl.
  - repeat constructor.
  - destruct (Z.leb_spec (compareEvents x y) 0) as [Le|Gt].
    + constructor; [now constructor|].
      constructor; [exact Le|].
      eapply Forall_impl; [|exact F]. intros z. now apply ev_le_trans.
    + constructor; [assumption|].
      apply Forall_forall. intros z IN. apply insertEvent_In in IN.
      destruct IN as [->|IN].
      * destruct (ev_le_total y x) as [H|H]; [assumption | unfold ev_le in H; lia].
      * rewrite Forall_forall in F. auto.
Qed.

Lemma sortEvents_sorted l : StronglySorted ev_le (sortEvents l).
Proof.
  induction l as [|x l IH]; simpl; [constructor | now apply insertEvent_sorted].
Qed.

Lemma StronglySorted_weaken {A} (R R' : A -> A -> Prop) l :
  (forall x y, R x y -> R' x y) -> StronglySorted R l -> StronglySorted R' l.
Proof.
  intros W. induction 1 as [|x l S IH F]; constructor; [assumption|].
  eapply Forall_impl; [|exact F]. auto.
Qed.

Lemma sortEvents_by_instant l :
  StronglySorted (fun a b => ev_t a <= ev_t b) (sortEvents l).
Proof.
  apply StronglySorted_weaken with ev_le; [|apply sortEvents_sorted].
  intros x y. rewrite ev_le_spec. lia.
Qed.

(** At equal instants the sort puts every closing before every opening:
    of two events of one instant, the earlier in the sorted array has the
    smaller type. *)
Lemma closings_before_openings l pre a mid b post :
  sortEvents l = pre ++ a :: mid ++ b :: post ->
  ev_t a = ev_t b -> ev_type a <= ev_type b.
Proof.
  intros E T. pose proof (sortEvents_sorted l) as S. rewrite E in S.
  assert (H : ev_le a b).
  { clear E. induction pre as [|x pre IH]; simpl in S.
    - inversion S as [|? ? _ F]; subst.
      rewrite Forall_forall in F. apply F. apply in_or_app. right. now left.
    - inversion S; auto. }
  apply ev_le_spec in H. lia.
Qed.

(** ** The sweep *)

Lemma set_has_In x s : set_has x s = true <-> In x s.
Proof.
  induction s as [|y s IH]; simpl; [split; [discriminate | contradiction]|].
  destruct (String.eqb_spec x y) as [->|N].
  - split; auto.
  - rewrite IH. split; [auto | intros [E|H]; [congruence | assumption]].
Qed.

Lemma set_add_NoDup x s : NoDup s -> NoDup (set_add x s).
Proof.
  intros H. unfold set_add. destruct (set_has x s) eqn:E; [assumption|].
  apply NoDup_app; [assumption | repeat constructor; simpl; tauto |].
  intros y IN [<-|[]]. apply set_has_In in IN. congruence.
Qed.

Lemma set_delete_NoDup x s : NoDup s -> NoDup (set_delete x s).
Proof. apply NoDup_filter. Qed.

Lemma sweepStep_active_NoDup st ev :
  NoDup (active st) -> NoDup (active (sweepStep st ev)).
Proof.
  intros H. unfold sweepStep; cbn [active].
  destruct (ev_type ev =? -1); [now apply set_delete_NoDup|].
  destruct (ev_type ev =? 1); [now apply set_add_NoDup | assumption].
Qed.

(** What a turn of the loop appends to [intervals]. *)
Lemma sweepStep_intervals st ev :
  intervals (sweepStep st ev) = intervals st
  \/ exists segStart,
       prevT st = Some segStart /\ (2 <= List.length (active st))%nat /\
       segStart < ev_t ev /\
       intervals (sweepStep st ev) =
       intervals st ++ [mkInterval segStart (ev_t ev) (ev_t ev - segStart)
                                   (active st) (List.length (active st))].
Proof.
  unfold sweepStep; cbn [intervals].
  destruct (prevT st) as [p|]; [|now left].
  destruct (Nat.leb_spec 2 (List.length (active st))); [|now left].
  destruct (Z.gtb_spec (ev_t ev) p); [|now left].
  right. exists p. auto.
Qed.

Lemma sweepStep_ok st ev :
  (forall p, prevT st = Some p -> p <= ev_t ev) ->
  sweep_ok st -> sweep_ok (sweepStep st ev).
Proof.
  intros LB (ND & OK & SS & PE).
  split; [now apply sweepStep_active_NoDup|].
  assert (PT : prevT (sweepStep st ev) = Some (ev_t ev)) by reflexivity.
  destruct (sweepStep_intervals st ev) as [->|(p & P & L2 & Lt & ->)].
  - repeat split; auto.
    intros iv IN. destruct (PE iv IN) as (p & P & Le).
    exists (ev_t ev). split; [assumption|]. specialize (LB p P). lia.
  - repeat split.
    + apply Forall_app. split; [assumption|].
      repeat constructor; simpl; auto; lia.
    + apply StronglySorted_snoc; [assumption|].
      apply Forall_forall. intros iv IN. destruct (PE iv IN) as (q & Q & Le).
      unfold follows; simpl. congruence.
    + intros iv IN. exists (ev_t ev). split; [assumption|].
      apply in_app_or in IN. destruct IN as [IN|[<-|[]]]; simpl; [|lia].
      destruct (PE iv IN) as (q & Q & Le). specialize (LB q Q). lia.
Qed.

Lemma sweep_fold_ok evs :
  forall st,
    StronglySorted (fun a b => ev_t a <= ev_t b) evs ->
    (forall ev p, In ev evs -> prevT st = Some p -> p <= ev_t ev) ->
    sweep_ok st -> sweep_ok (fold_left sweepStep evs st).
Proof.
  induction evs as [|ev evs IH]; intros st S LB OK; simpl; [assumption|].
  inversion S as [|? ? S' F]; subst.
  apply IH.
  - assumption.
  - intros ev' p IN [= <-]. rewrite Forall_forall in F. auto.
  - apply sweepStep_ok; [|assumption]. intros p. apply LB. now left.
Qed.

Lemma allIntervals_ok now s :
  Forall interval_ok (allIntervals now s) /\
  StronglySorted follows (allIntervals now s).
Proof.
  unfold allIntervals, sweep.
  destruct (sweep_fold_ok (sortEvents (buildEvents now s)) (mkSweep [] [] None))
    as (_ & OK & SS & _).
  - apply sortEvents_by_instant.
  - discriminate.
  - repeat split; simpl; try constructor. contradiction.
  - auto.
Qed.

Lemma computeOverlaps_run now w :
  computeOverlaps now w =
  Some (mkOverlaps (summarize (allIntervals now (mem w)))
                   (slice_last 100 (allIntervals now (mem w))), w).
Proof. reflexivity. Qed.

Lemma Forall_skipn {A} (P : A -> Prop) n l : Forall P l -> Forall P (skipn n l).
Proof.
  intros H. rewrite <- (firstn_skipn n l) in H.
  apply Forall_app in H. tauto.
Qed.

Lemma StronglySorted_skipn {A} (R : A -> A -> Prop) n :
  forall l, StronglySorted R l -> StronglySorted R (skipn n l).
Proof.
  induction n as [|n IH]; intros l H; [assumption|].
  destruct l as [|x l]; [assumption|].
  simpl. apply IH. now inversion H.
Qed.

Example overlap_of_two_sessions :
  computeOverlaps 9000000 store_two =
  Some (mkOverlaps (mkSummary 900000 0 0 900000)
                   [mkInterval 900000 1800000 900000 ["Zumito Kun"; "Lulau22"]%string 2],
        store_two).
Proof. reflexivity. Qed.

Example overlap_of_three_sessions :
  computeOverlaps 9000000 store_three =
  Some (mkOverlaps (mkSummary 0 600000 0 600000)
                   [mkInterval 0 600000 600000
                               ["Zumito Kun"; "Lulau22"; "Cronoxis"]%string 3],
        store_three).
Proof. reflexivity. Qed.

(** ** The emitted intervals *)

(** C8. Every interval emitted by [computeOverlaps], among all of them and
    among those returned, has [count] equal to the number of its participants,
    which are pairwise distinct and at least two, and a [durationMs] equal to
    [end - start] and positive; so no interval covers a zero-length gap. *)
Theorem emitted_intervals_well_formed :
  forall (now : Z) (w : world),
    Forall interval_ok (allIntervals now (mem w)) /\
    exists r,
      computeOverlaps now w = Some (r, w) /\
      Forall interval_ok (ov_intervals r).
Proof.
  intros now w. destruct (allIntervals_ok now (mem w)) as [OK _].
  split; [assumption|].
  eexists. split; [apply computeOverlaps_run|].
  cbn [ov_intervals]. now apply Forall_skipn.
Qed.

(** C10. The intervals returned by [computeOverlaps], and the full list
    they are cut from, are in chronological order and pairwise disjoint:
    every interval starts no earlier than every earlier interval ends, and
    strictly later than it starts. *)
Theorem emitted_intervals_ordered :
  forall (now : Z) (w : world),
    StronglySorted follows (allIntervals now (mem w)) /\
    exists r,
      computeOverlaps now w = Some (r, w) /\
      StronglySorted follows (ov_intervals r) /\
      StronglySorted (fun i1 i2 => iv_start i1 < iv_start i2) (ov_intervals r).
Proof.
  intros now w. destruct (allIntervals_ok now (mem w)) as [OK SS].
  split; [assumption|].
  eexists. split; [apply computeOverlaps_run|].
  cbn [ov_intervals]. unfold slice_last.
  set (n := (List.length (allIntervals now (mem w)) - 100)%nat).
  pose proof (StronglySorted_skipn follows n _ SS) as SS'.
  pose proof (Forall_skipn interval_ok n _ OK) as OK'.
  split; [assumption|].
  induction SS' as [|iv l S IH F]; [constructor|].
  inversion OK' as [|? ? (_ & _ & _ & D & P) OKl]; subst.
  constructor; [auto|].
  eapply Forall_impl; [|exact F]. unfold follows. intros iv'. lia.
Qed.

(** ** The summary *)

Lemma summaryStep_spec e2 e3 e4 iv :
  summaryStep (e2, e3, e4) iv =
  (e2 + (if is2 (count iv) then durationMs iv else 0),
   e3 + (if is3 (count iv) then durationMs iv else 0),
   e4 + (if atLeast4 (count iv) then durationMs iv else 0)).
Proof.
  unfold summaryStep, is2, is3, atLeast4.
  destruct (Nat.eqb_spec (count iv) 2); destruct (Nat.eqb_spec (count iv) 3);
    destruct (Nat.leb_spec 4 (count iv));
    try lia; rewrite ?Z.add_0_r; reflexivity.
Qed.

Lemma totalMs_with_count_cons c iv ivs :
  totalMs (with_count c (iv :: ivs)) =
  (if c (count iv) then durationMs iv else 0) + totalMs (with_count c ivs).
Proof.
  unfold with_count; simpl. destruct (c (count iv)); reflexivity.
Qed.

Lemma summarize_fold ivs :
  forall e2 e3 e4,
    fold_left summaryStep ivs (e2, e3, e4) =
    (e2 + totalMs (with_count is2 ivs),
     e3 + totalMs (with_count is3 ivs),
     e4 + totalMs (with_count atLeast4 ivs)).
Proof.
  induction ivs as [|iv ivs IH]; intros e2 e3 e4.
  - simpl. now rewrite !Z.add_0_r.
  - cbn [fold_left]. rewrite summaryStep_spec, IH, !totalMs_with_count_cons.
    now rewrite !Z.add_assoc.
Qed.

Lemma summarize_spec ivs :
  summarize ivs =
  mkSummary (totalMs (with_count is2 ivs)) (totalMs (with_count is3 ivs))
            (totalMs (with_count atLeast4 ivs))
            (totalMs (with_count is2 ivs) + totalMs (with_count is3 ivs)
             + totalMs (with_count atLeast4 ivs)).
Proof.
  unfold summarize. now rewrite summarize_fold.
Qed.

Lemma buckets_cover ivs :
  Forall (fun iv => (2 <= count iv)%nat) ivs ->
  totalMs (with_count is2 ivs) + totalMs (with_count is3 ivs)
  + totalMs (with_count atLeast4 ivs) = totalMs ivs.
Proof.
  induction 1 as [|iv ivs C F IH]; [reflexivity|].
  rewrite !totalMs_with_count_cons. cbn [totalMs fold_right].
  fold (totalMs ivs). rewrite <- IH.
  unfold is2 at 1, is3 at 1, atLeast4 at 1.
  destruct (Nat.eqb_spec (count iv) 2); destruct (Nat.eqb_spec (count iv) 3);
    destruct (Nat.leb_spec 4 (count iv)); lia.
Qed.

(** C5. In the result of [computeOverlaps] the fields [exactly2Ms],
    [exactly3Ms] and [exactly4Ms] are the sums of [durationMs] over the
    emitted intervals of count 2, of count 3 and of count at least 4;
    [twoOrMoreMs] is the sum of the three, which is the sum over every
    emitted interval.  The sums range over all the emitted intervals, while
    [intervals] holds only the last hundred of them. *)
Theorem summary_sums_all_intervals :
  forall (now : Z) (w : world),
    exists r,
      computeOverlaps now w = Some (r, w) /\
      exactly2Ms (ov_summary r) = totalMs (with_count is2 (allIntervals now (mem w))) /\
      exactly3Ms (ov_summary r) = totalMs (with_count is3 (allIntervals now (mem w))) /\
      exactly4Ms (ov_summary r) = totalMs (with_count atLeast4 (allIntervals now (mem w))) /\
      twoOrMoreMs (ov_summary r) =
        exactly2Ms (ov_summary r) + exactly3Ms (ov_summary r) + exactly4Ms (ov_summary r) /\
      twoOrMoreMs (ov_summary r) = totalMs (allIntervals now (mem w)) /\
      ov_intervals r =
        skipn (List.length (allIntervals now (mem w)) - 100) (allIntervals now (mem w)) /\
      List.length (ov_intervals r) =
        Nat.min 100 (List.length (allIntervals now (mem w))).
Proof.
  intros now w. eexists. split; [apply computeOverlaps_run|].
  cbn [ov_summary ov_intervals]. rewrite summarize_spec.
  cbn [exactly2Ms exactly3Ms exactly4Ms twoOrMoreMs].
  repeat split.
  - apply buckets_cover. destruct (allIntervals_ok now (mem w)) as [OK _].
    eapply Forall_impl; [|exact OK]. intros iv (_ & _ & C & _). exact C.
  - unfold slice_last. rewrite length_skipn. lia.
Qed.

(** With 101 emitted intervals of 10 ms each, the summary counts 1010 ms
    and the hundred returned intervals add up to 1000 ms. *)
Lemma summary_beyond_returned_intervals :
  exists r,
    computeOverlaps 5000 store_101 = Some (r, store_101) /\
    List.length (allIntervals 5000 (mem store_101)) = 101%nat /\
    List.length (ov_intervals r) = 100%nat /\
    exactly2Ms (ov_summary r) = 1010 /\
    twoOrMoreMs (ov_summary r) = 1010 /\
    totalMs (ov_intervals r) = 1000.
Proof.
  eexists. split; [apply computeOverlaps_run|].
  repeat split; vm_compute; reflexivity.
Qed.

(** ** Open sessions in the overlap computation *)

Lemma sessionEvents_set_sessions now ss p s :
  sessionEvents now (set_sessions ss p) s = sessionEvents now p s.
Proof. reflexivity. Qed.

Lemma playerEvents_set_sessions now ss p :
  playerEvents now (set_sessions ss p) = flat_map (sessionEvents now p) ss.
Proof. reflexivity. Qed.

Lemma buildEvents_at now pre k p post lm c :
  buildEvents now (mkState (pre ++ (k, p) :: post) lm c) =
  flat_map (playerEvents now) (values pre)
  ++ playerEvents now p
  ++ flat_map (playerEvents now) (values post).
Proof.
  unfold buildEvents, values; cbn [players].
  now rewrite map_app, flat_map_app.
Qed.

Lemma eval_computeOverlaps_events now w1 w2 :
  buildEvents now (mem w1) = buildEvents now (mem w2) ->
  eval (computeOverlaps now) w1 = eval (computeOverlaps now) w2.
Proof.
  intros E. unfold eval. rewrite !computeOverlaps_run. cbn [option_map fst].
  unfold allIntervals. now rewrite E.
Qed.

Lemma sessionEvents_open_idle now p s :
  end_ s = None -> isPlayingNow now p = false -> sessionEvents now p s = [].
Proof.
  intros O I. unfold sessionEvents. rewrite O, I.
  destruct (isoToDT (start s)); reflexivity.
Qed.

Lemma sessionEvents_open_playing now p s a :
  end_ s = None -> isPlayingNow now p = true -> start s = Some a ->
  sessionEvents now p s = [mkEvent a 1 (name p); mkEvent now (-1) (name p)].
Proof.
  intros O I S. unfold sessionEvents, isoToDT. now rewrite O, I, S.
Qed.

(** C4. Let [s] be an open session in the log of a stored player [p].
    When [p] is not playing now, [s] yields no event, the events
    [computeOverlaps] builds from the store are those of the store without
    [s], and so is its result.  When [p] is playing now, [s] yields an
    opening at its start and a closing at the clock read; both are among the
    events built from the store, at the place of [s] in the log, and among
    the sorted events the sweep goes through; and the result is the one of
    the store where [s] ends at that instant.  In both cases
    [computeOverlaps] returns with the store and the data file as they were:
    the session stays open in the log. *)
Theorem open_session_in_overlaps :
  forall (now : Z) (pre post : list (string * player)) (k : string) (p : player)
         (lm : option latest) (c : Z) (d : dataFile)
         (l1 l2 : list session) (s : session),
    sessions p = l1 ++ s :: l2 ->
    end_ s = None ->
    let store q := mkWorld (mkState (pre ++ (k, q) :: post) lm c) d in
    (isPlayingNow now p = false ->
       sessionEvents now p s = [] /\
       buildEvents now (mem (store p)) =
       buildEvents now (mem (store (set_sessions (l1 ++ l2) p))) /\
       eval (computeOverlaps now) (store p) =
       eval (computeOverlaps now) (store (set_sessions (l1 ++ l2) p))) /\
    (isPlayingNow now p = true ->
       forall a, start s = Some a ->
         sessionEvents now p s = [mkEvent a 1 (name p); mkEvent now (-1) (name p)] /\
         buildEvents now (mem (store p)) =
         flat_map (playerEvents now) (values pre)
         ++ (flat_map (sessionEvents now p) l1
             ++ [mkEvent a 1 (name p); mkEvent now (-1) (name p)]
             ++ flat_map (sessionEvents now p) l2)
         ++ flat_map (playerEvents now) (values post) /\
         In (mkEvent a 1 (name p)) (buildEvents now (mem (store p))) /\
         In (mkEvent now (-1) (name p)) (buildEvents now (mem (store p))) /\
         In (mkEvent a 1 (name p)) (sortEvents (buildEvents now (mem (store p)))) /\
         In (mkEvent now (-1) (name p)) (sortEvents (buildEvents now (mem (store p)))) /\
         eval (computeOverlaps now) (store p) =
         eval (computeOverlaps now)
              (store (set_sessions (l1 ++ mkSession (Some a) (Some now) :: l2) p))) /\
    exec (computeOverlaps now) (store p) = Some (store p).
Proof.
  intros now pre post k p lm c d l1 l2 s E O store.
  split; [|split].
  - intros I. pose proof (sessionEvents_open_idle now p s O I) as Ev.
    split; [assumption|].
    assert (B : buildEvents now (mem (store p)) =
                buildEvents now (mem (store (set_sessions (l1 ++ l2) p)))).
    { unfold store; cbn [mem].
      rewrite !buildEvents_at. do 2 f_equal.
      rewrite playerEvents_set_sessions. unfold playerEvents.
      rewrite E, !flat_map_app. cbn [flat_map]. now rewrite Ev. }
    split; [exact B|]. now apply eval_computeOverlaps_events.
  - intros I a S. pose proof (sessionEvents_open_playing now p s a O I S) as Ev.
    split; [assumption|].
    assert (B : buildEvents now (mem (store p)) =
                flat_map (playerEvents now) (values pre)
                ++ (flat_map (sessionEvents now p) l1
                    ++ [mkEvent a 1 (name p); mkEvent now (-1) (name p)]
                    ++ flat_map (sessionEvents now p) l2)
                ++ flat_map (playerEvents now) (values post)).
    { unfold store; cbn [mem].
      rewrite buildEvents_at. unfold playerEvents at 2.
      rewrite E, flat_map_app. cbn [flat_map]. now rewrite Ev. }
    assert (Io : In (mkEvent a 1 (name p)) (buildEvents now (mem (store p)))).
    { rewrite B. apply in_or_app. right. apply in_or_app. left.
      apply in_or_app. right. now left. }
    assert (Ic : In (mkEvent now (-1) (name p)) (buildEvents now (mem (store p)))).
    { rewrite B. apply in_or_app. right. apply in_or_app. left.
      apply in_or_app. right. right. now left. }
    split; [exact B|]. split; [exact Io|]. split; [exact Ic|].
    split; [now apply sortEvents_In|]. split; [now apply sortEvents_In|].
    apply eval_computeOverlaps_events. unfold store; cbn [mem].
    rewrite !buildEvents_at. do 2 f_equal.
    rewrite playerEvents_set_sessions. unfold playerEvents.
    rewrite E, !flat_map_app. cbn [flat_map]. rewrite Ev.
    reflexivity.
  - reflexivity.
Qed.

Lemma open_session_in_overlaps_witness :
  isPlayingNow 600000 cronoxis_open = true /\
  sessionEvents 600000 cronoxis_open (mkSession (Some 0) None) =
    [mkEvent 0 1 "Cronoxis"; mkEvent 600000 (-1) "Cronoxis"] /\
  buildEvents 600000 (mem store_open) =
    [mkEvent 0 1 "Cronoxis"; mkEvent 600000 (-1) "Cronoxis"] /\
  In (mkEvent 0 1 "Cronoxis") (buildEvents 600000 (mem store_open)) /\
  In (mkEvent 600000 (-1) "Cronoxis") (buildEvents 600000 (mem store_open)) /\
  eval (computeOverlaps 600000) store_open =
    eval (computeOverlaps 600000)
         (mkWorld (mkState [("Cronoxis"%string,
                             set_sessions [mkSession (Some 0) (Some 600000)]
                                          cronoxis_open)] None 0) NoFile) /\
  exec (computeOverlaps 600000) store_open = Some store_open.
Proof.
  destruct (open_session_in_overlaps
              600000 [] [] "Cronoxis" cronoxis_open None 0 NoFile
              [] [] (mkSession (Some 0) None) eq_refl eq_refl) as (_ & P & X).
  destruct (P eq_refl 0 eq_refl) as (Ev & B & Io & Ic & _ & _ & R).
  split; [reflexivity|].
  split; [exact Ev|]. split; [exact B|]. split; [exact Io|]. split; [exact Ic|].
  split; [exact R | exact X].
Defined.

(** ** Soundness of the sweep on spans of positive length *)

Lemma flat_map_flat_map {A B C} (f : B -> list C) (g : A -> list B) l :
  flat_map f (flat_map g l) = flat_map (fun x => flat_map f (g x)) l.
Proof.
  induction l as [|x l IH]; simpl; [reflexivity|].
  now rewrite flat_map_app, IH.
Qed.

Lemma sessionEvents_spans now p s :
  sessionEvents now p s = flat_map spanEvents (sessionSpans now p s).
Proof.
  unfold sessionEvents, sessionSpans, isoToDT.
  destruct (start s) as [a|], (end_ s) as [e|]; try reflexivity.
  destruct (isPlayingNow now p); reflexivity.
Qed.

Lemma buildEvents_spans now s :
  buildEvents now s = flat_map spanEvents (spans now s).
Proof.
  unfold buildEvents, spans, playerEvents.
  rewrite flat_map_flat_map. apply flat_map_ext. intros p.
  rewrite flat_map_flat_map. apply flat_map_ext. intros x.
  apply sessionEvents_spans.
Qed.

Section SweepSound.
Variable sps : list span.
Hypothesis positive : forall sp, In sp sps -> sp_start sp < sp_end sp.

Lemma span_event_cases ev :
  In ev (flat_map spanEvents sps) ->
  exists sp, In sp sps /\
    (ev = mkEvent (sp_start sp) 1 (sp_who sp) \/
     ev = mkEvent (sp_end sp) (-1) (sp_who sp)).
Proof.
  intros IN. apply in_flat_map in IN. destruct IN as (sp & IN & [<-|[<-|[]]]);
    exists sp; auto.
Qed.

Lemma sorted_split done ev todo :
  StronglySorted ev_le (done ++ ev :: todo) ->
  Forall (fun x => ev_le x ev) done /\ Forall (ev_le ev) todo.
Proof.
  induction done as [|x done IH]; simpl; intros S;
    inversion S as [|? ? S' F]; subst.
  - split; [constructor | assumption].
  - destruct (IH S') as [D T]. split; [|assumption].
    constructor; [|assumption].
    rewrite Forall_forall in F. apply F. apply in_or_app. right. now left.
Qed.

Lemma sweepStep_sound done ev todo st :
  StronglySorted ev_le (done ++ ev :: todo) ->
  (forall x, In x (flat_map spanEvents sps) <-> In x (done ++ ev :: todo)) ->
  sweep_sound sps (ev :: todo) st ->
  sweep_sound sps todo (sweepStep st ev).
Proof.
  intros S Same (PT & ACT & IV).
  destruct (sorted_split done ev todo S) as [Sdone Stodo].
  rewrite Forall_forall in Sdone, Stodo.
  assert (Prev : forall p, prevT st = Some p -> p <= ev_t ev).
  { intros p P. apply (PT p ev P). now left. }
  assert (Old : forall n, In n (active st) ->
                  (ev_type ev = -1 -> ev_who ev <> n) ->
                  exists sp, In sp sps /\ sp_who sp = n /\
                    (exists p, prevT (sweepStep st ev) = Some p /\ sp_start sp <= p) /\
                    In (mkEvent (sp_end sp) (-1) n) todo).
  { intros n INn Ne. destruct (ACT n INn) as (sp & INsp & W & (q & Q & St) & [E|T]).
    - exfalso. apply Ne; rewrite E; reflexivity.
    - exists sp. repeat split; auto.
      exists (ev_t ev). split; [reflexivity|]. specialize (Prev q Q). lia. }
  split; [|split].
  - intros p y [= <-] IN. specialize (Stodo y IN). apply ev_le_spec in Stodo. lia.
  - intros n IN. unfold sweepStep in IN; cbn [active] in IN.
    destruct (Z.eqb_spec (ev_type ev) (-1)) as [Tm|Tm].
    + unfold set_delete in IN. apply filter_In in IN. destruct IN as [IN NE].
      apply Old; [assumption|]. intros _ E. rewrite E, String.eqb_refl in NE.
      discriminate.
    + destruct (Z.eqb_spec (ev_type ev) 1) as [Tp|Tp];
        [|apply Old; [assumption | intros; contradiction]].
      unfold set_add in IN.
      destruct (set_has (ev_who ev) (active st));
        [apply Old; [assumption | intros; contradiction]|].
      apply in_app_or in IN.
      destruct IN as [IN|[<-|[]]];
        [apply Old; [assumption | intros; contradiction]|].
      assert (INev : In ev (flat_map spanEvents sps)).
      { apply Same. apply in_or_app. right. now left. }
      destruct (span_event_cases ev INev) as (sp & INsp & [E|E]);
        [|rewrite E in Tp; discriminate].
      exists sp. split; [assumption|]. split; [now rewrite E|].
      split; [exists (ev_t ev); split; [reflexivity | rewrite E; simpl; lia]|].
      assert (INc : In (mkEvent (sp_end sp) (-1) (sp_who sp)) (done ++ ev :: todo)).
      { apply Same. apply in_flat_map. exists sp. split; [assumption|].
        right. now left. }
      replace (ev_who ev) with (sp_who sp) by now rewrite E.
      apply in_app_or in INc. destruct INc as [INc|[INc|INc]]; [| |assumption].
      * specialize (Sdone _ INc). apply ev_le_spec in Sdone.
        specialize (positive sp INsp). rewrite E in Sdone. simpl in Sdone. lia.
      * rewrite E in INc. discriminate.
  - destruct (sweepStep_intervals st ev) as [->|(p & P & L2 & Lt & ->)];
      [assumption|].
    apply Forall_app. split; [assumption|]. repeat constructor.
    intros n IN. cbn [iv_players] in IN.
    destruct (ACT n IN) as (sp & INsp & W & (q & Q & St) & C).
    exists sp. repeat split; auto; cbn [iv_start iv_end].
    + congruence.
    + assert (L : ev_le ev (mkEvent (sp_end sp) (-1) n)).
      { destruct C as [<-|C]; [|auto].
        apply ev_le_spec. lia. }
      apply ev_le_spec in L. simpl in L. lia.
Qed.

Lemma sweep_fold_sound todo :
  forall done st,
    StronglySorted ev_le (done ++ todo) ->
    (forall x, In x (flat_map spanEvents sps) <-> In x (done ++ todo)) ->
    sweep_sound sps todo st ->
    Forall (covered sps) (intervals (fold_left sweepStep todo st)).
Proof.
  induction todo as [|ev todo IH]; intros done st S Same OK; simpl.
  - destruct OK as (_ & _ & IV). exact IV.
  - apply (IH (done ++ [ev])).
    + now rewrite <- app_assoc.
    + intros x. rewrite <- app_assoc. apply Same.
    + eapply sweepStep_sound; eassumption.
Qed.

Lemma sweep_sorted_sound :
  Forall (covered sps) (intervals (sweep (sortEvents (flat_map spanEvents sps)))).
Proof.
  unfold sweep. apply (sweep_fold_sound _ []).
  - apply sortEvents_sorted.
  - intros x. simpl. symmetry. apply sortEvents_In.
  - repeat split; simpl; try contradiction; try discriminate. constructor.
Qed.
End SweepSound.

(** When every span has positive length, every participant of every
    emitted interval is in a session that covers the whole interval. *)
Lemma allIntervals_covered now s :
  (forall sp, In sp (spans now s) -> sp_start sp < sp_end sp) ->
  Forall (covered (spans now s)) (allIntervals now s).
Proof.
  intros P. unfold allIntervals. rewrite buildEvents_spans.
  now apply sweep_sorted_sound.
Qed.

(** Two players whose spans only touch or are apart never share an emitted
    interval, as long as every span has positive length: the tie-break
    keeps a session that ends at an instant apart from one that begins
    there. *)
Lemma touching_sessions_share_no_interval now s A B iv :
  (forall sp, In sp (spans now s) -> sp_start sp < sp_end sp) ->
  (forall spA spB,
     In spA (spans now s) -> In spB (spans now s) ->
     sp_who spA = A -> sp_who spB = B ->
     sp_end spA <= sp_start spB \/ sp_end spB <= sp_start spA) ->
  In iv (allIntervals now s) ->
  ~ (In A (iv_players iv) /\ In B (iv_players iv)).
Proof.
  intros P Apart IN [INA INB].
  pose proof (allIntervals_covered now s P) as C.
  destruct (allIntervals_ok now s) as [OK _].
  rewrite Forall_forall in C, OK.
  destruct (OK iv IN) as (_ & _ & _ & D & Pos).
  destruct (C iv IN A INA) as (spA & IA & WA & SA & EA).
  destruct (C iv IN B INB) as (spB & IB & WB & SB & EB).
  destruct (Apart spA spB IA IB WA WB); lia.
Qed.

(** ** The boundary tie-break and sessions of zero length *)

(** C1, on a store the code reaches.  Zumito Kun's only match is stamped
    minute 20, so the sweep closes the session over [20, 20]; Lulau22's
    session over [20, 30] begins at that instant.  [computeOverlaps] then
    returns one interval of count 2 over [20, 30] with both players: sorted
    close-before-open, the closing of the zero-length session comes before
    its own opening, and Zumito Kun stays in the active set. *)
Theorem zero_length_session_overlaps_at_boundary :
  exists w r zu lu,
    run tie_ops (mkWorld (defaultState 0) NoFile) = Some (tt, w) /\
    lookup "Zumito Kun" (players (mem w)) = Some zu /\
    sessions zu = [mkSession (Some 1200000) (Some 1200000)] /\
    lookup "Lulau22" (players (mem w)) = Some lu /\
    sessions lu = [mkSession (Some 1200000) (Some 1800000)] /\
    sortEvents (buildEvents 3660000 (mem w)) =
      [ mkEvent 1200000 (-1) "Zumito Kun"; mkEvent 1200000 1 "Zumito Kun";
        mkEvent 1200000 1 "Lulau22"; mkEvent 1800000 (-1) "Lulau22" ] /\
    computeOverlaps 3660000 w = Some (r, w) /\
    ov_intervals r =
      [mkInterval 1200000 1800000 600000 ["Zumito Kun"; "Lulau22"]%string 2] /\
    exactly2Ms (ov_summary r) = 600000.
Proof.
  do 4 eexists.
  split; [vm_compute; reflexivity|].
  split; [vm_compute; reflexivity|]. split; [reflexivity|].
  split; [vm_compute; reflexivity|]. split; [reflexivity|].
  split; [vm_compute; reflexivity|].
  split; [apply computeOverlaps_run|].
  split; vm_compute; reflexivity.
Qed.

(** ** Load after save *)

Lemma lookup_app_other k k' q ps :
  k <> k' -> lookup k (ps ++ [(k', q)]) = lookup k ps.
Proof.
  intros N. induction ps as [|[k0 p] ps IH]; simpl.
  - destruct (String.eqb_spec k k'); [contradiction | reflexivity].
  - destruct (String.eqb k k0); [reflexivity | exact IH].
Qed.

Lemma lookup_app_new k q ps :
  lookup k ps = None -> lookup k (ps ++ [(k, q)]) = Some q.
Proof.
  induction ps as [|[k0 p] ps IH]; simpl; intros L.
  - now rewrite String.eqb_refl.
  - destruct (String.eqb k k0); [discriminate | auto].
Qed.

Lemma update_fixed k f ps p :
  lookup k ps = Some p -> f p = p -> update k f ps = ps.
Proof.
  induction ps as [|[k0 q] ps IH]; simpl; intros L E; [reflexivity|].
  destruct (String.eqb k k0).
  - injection L as ->. now rewrite E.
  - now rewrite IH.
Qed.

Lemma set_url_same p : set_url (url p) p = p.
Proof. now destruct p. Qed.

Lemma mergeRoster_other ps r k :
  r_name r <> k -> lookup k (mergeRoster ps r) = lookup k ps.
Proof.
  intros N. unfold mergeRoster.
  destruct (lookup (r_name r) ps).
  - apply lookup_update_other. congruence.
  - apply lookup_app_other. congruence.
Qed.

Lemma mergeRoster_here ps r :
  exists p, lookup (r_name r) (mergeRoster ps r) = Some p /\ url p = r_url r.
Proof.
  unfold mergeRoster. destruct (lookup (r_name r) ps) as [p|] eqn:L.
  - exists (set_url (r_url r) p). now rewrite lookup_update_same, L.
  - exists (defaultPlayer r). split; [now apply lookup_app_new | reflexivity].
Qed.

Lemma merge_others rs :
  forall ps k,
    (forall r, In r rs -> r_name r <> k) ->
    lookup k (fold_left mergeRoster rs ps) = lookup k ps.
Proof.
  induction rs as [|r rs IH]; intros ps k N; simpl; [reflexivity|].
  rewrite IH by (intros r' IN; apply N; now right).
  apply mergeRoster_other. apply N. now left.
Qed.

Lemma merge_synced rs :
  NoDup (map r_name rs) ->
  forall ps, roster_synced rs (fold_left mergeRoster rs ps).
Proof.
  induction rs as [|r rs IH]; intros ND ps r' IN; [contradiction|].
  inversion ND as [|? ? NI ND']; subst. simpl.
  destruct IN as [<-|IN]; [|now apply IH].
  rewrite merge_others.
  - apply mergeRoster_here.
  - intros r' IN E. apply NI. rewrite <- E. now apply in_map.
Qed.

Lemma merge_fixed rs :
  forall ps, roster_synced rs ps -> fold_left mergeRoster rs ps = ps.
Proof.
  induction rs as [|r rs IH]; intros ps SY; simpl; [reflexivity|].
  assert (E : mergeRoster ps r = ps).
  { destruct (SY r (or_introl eq_refl)) as (p & L & U).
    unfold mergeRoster. rewrite L. apply update_fixed with p; [assumption|].
    rewrite <- U. apply set_url_same. }
  rewrite E. apply IH. intros r' IN. apply SY. now right.
Qed.

Lemma PLAYERS_names_NoDup : NoDup (map r_name PLAYERS).
Proof.
  unfold PLAYERS; simpl.
  repeat constructor; simpl; intuition discriminate.
Qed.

Lemma defaultState_synced c : roster_synced PLAYERS (players (defaultState c)).
Proof.
  intros r IN. unfold PLAYERS in IN; simpl in IN.
  destruct IN as [<-|[<-|[<-|[<-|[]]]]]; eexists; split; reflexivity.
Qed.

Lemma loadState_synced now d : roster_synced PLAYERS (players (loadState now d)).
Proof.
  destruct d as [| |parsed]; cbn [loadState players].
  - apply defaultState_synced.
  - apply defaultState_synced.
  - apply merge_synced, PLAYERS_names_NoDup.
Qed.

Lemma acceptMatch_url i p : url (acceptMatch i p) = url p.
Proof.
  unfold acceptMatch. destruct (lastOf (sessions p)) as [[a [e|]]|]; reflexivity.
Qed.

Lemma closePlayer_url now p : url (closePlayer now p) = url p.
Proof.
  destruct (closePlayer_cases now p) as [->|(pre & l & e & _ & _ & _ & ->)];
    reflexivity.
Qed.

Lemma step_synced o w w' :
  step o w = Some (tt, w') ->
  roster_synced PLAYERS (players (mem w)) ->
  roster_synced PLAYERS (players (mem w')).
Proof.
  intros S SY r IN. destruct (SY r IN) as (p & L & U).
  destruct (step_cases o w w' S) as [E|[(r' & i & ok & q & _ & L' & _ & E)|(now & _ & E)]];
    rewrite E.
  - eauto.
  - destruct (String.eqb_spec (r_name r) (r_name r')) as [Q|Q].
    + rewrite Q, lookup_update_same. rewrite Q in L. rewrite L.
      eexists. split; [reflexivity|]. now rewrite acceptMatch_url.
    + rewrite lookup_update_other by assumption. eauto.
  - rewrite lookup_map_values, L.
    eexists. split; [reflexivity|]. now rewrite closePlayer_url.
Qed.

Lemma reachable_synced w : reachable w -> roster_synced PLAYERS (players (mem w)).
Proof.
  induction 1 as [now d|o w w' R IH OR S].
  - apply loadState_synced.
  - eapply step_synced; eassumption.
Qed.

Lemma reachable_run ops :
  forall w w', reachable w -> Forall on_roster ops ->
               run ops w = Some (tt, w') -> reachable w'.
Proof.
  induction ops as [|o ops IH]; intros w w' RW OR R.
  - simpl in R. now injection R as <-.
  - inversion OR; subst. simpl in R. unfold bind in R.
    destruct (step o w) as [[[] w1]|] eqn:S; [|discriminate].
    apply (IH w1 w'); auto. eapply reach_step; eassumption.
Qed.

(** The store of [two_session_ops] is one the script reaches. *)
Lemma store_two_sessions_reachable : reachable store_two_sessions.
Proof.
  apply (reachable_run two_session_ops (mkWorld (defaultState 0) NoFile)).
  - exact (reach_start 0 NoFile).
  - unfold two_session_ops.
    repeat (constructor;
            [first [exact I | simpl; repeat (first [left; reflexivity | right])]|]).
    constructor.
  - vm_compute. reflexivity.
Qed.

(** C9. From every state the script reaches, a save that succeeds followed
    by [loadState] gives back the state itself; so every roster player is
    found again with the same [sessions], [lastMatchId] and [lastMatchAt]. *)
Theorem save_then_load_roundtrip :
  forall (w : world) (now : Z),
    reachable w ->
    exists w',
      saveState true w = Some (tt, w') /\
      loadState now (disk w') = mem w /\
      forall r, In r PLAYERS ->
        exists p p',
          lookup (r_name r) (players (mem w)) = Some p /\
          lookup (r_name r) (players (loadState now (disk w'))) = Some p' /\
          sessions p' = sessions p /\
          lastMatchId p' = lastMatchId p /\
          lastMatchAt p' = lastMatchAt p.
Proof.
  intros w now R. pose proof (reachable_synced w R) as SY.
  assert (E : loadState now (Stored (mem w)) = mem w).
  { cbn [loadState]. rewrite merge_fixed by assumption. now destruct (mem w). }
  eexists. split; [reflexivity|]. cbn [disk]. split; [exact E|].
  intros r IN. destruct (SY r IN) as (p & L & _).
  exists p, p. rewrite E. auto.
Qed.

Lemma save_then_load_roundtrip_witness :
  exists w',
    saveState true store_two_sessions = Some (tt, w') /\
    loadState 5 (disk w') = mem store_two_sessions /\
    (exists p',
       lookup "Cronoxis" (players (loadState 5 (disk w'))) = Some p' /\
       sessions p' = [mkSession (Some 0) (Some 600000); mkSession (Some 3600000) None] /\
       lastMatchId p' = Some "m3"%string /\
       lastMatchAt p' = Some 3600000) /\
    (exists p',
       lookup "Zumito Kun" (players (loadState 5 (disk w'))) = Some p' /\
       sessions p' = [mkSession (Some 6000000) (Some 6000000); mkSession (Some 0) None] /\
       lastMatchId p' = Some "a2"%string /\
       lastMatchAt p' = Some 0) /\
    forall r, In r PLAYERS ->
      exists p p',
        lookup (r_name r) (players (mem store_two_sessions)) = Some p /\
        lookup (r_name r) (players (loadState 5 (disk w'))) = Some p' /\
        sessions p' = sessions p /\
        lastMatchId p' = lastMatchId p /\
        lastMatchAt p' = lastMatchAt p.
Proof.
  destruct (save_then_load_roundtrip store_two_sessions 5
              store_two_sessions_reachable) as (w' & S & L & A).
  exists w'. split; [exact S|]. split; [exact L|].
  split; [|split; [|exact A]]; rewrite L.
  - eexists. split; [vm_compute; reflexivity|]. repeat split.
  - eexists. split; [vm_compute; reflexivity|]. repeat split.
Defined.

(** * The rest of the script *)

(** ** Time utilities *)

(** X1. [minutesBetween] does not depend on the order of its arguments, is
    [null] exactly when one of them is missing, and is never negative. *)
Theorem minutesBetween_symmetric :
  forall (a b : ISO),
    minutesBetween a b = minutesBetween b a /\
    (minutesBetween a b = None <-> a = None \/ b = None) /\
    (forall m, minutesBetween a b = Some m -> (0 <= m)%Q).
Proof.
  intros [a|] [b|]; unfold minutesBetween, isoToDT; simpl.
  - split; [|split].
    + do 2 f_equal. lia.
    + split; [discriminate | intros [H|H]; discriminate].
    + intros m [= <-]. unfold Qle; simpl. lia.
  - split; [reflexivity|]. split; [tauto | discriminate].
  - split; [reflexivity|]. split; [tauto | discriminate].
  - split; [reflexivity|]. split; [tauto | discriminate].
Qed.

(** ** Duration formatting *)

Lemma digits_of_uint d : digits (DecimalString.NilEmpty.string_of_uint d) = true.
Proof. induction d; simpl; auto. Qed.

Lemma isDigit_plain c :
  isDigit c = true -> Ascii.eqb c ":" = false /\ Ascii.eqb c "-" = false.
Proof.
  intros H. split.
  - destruct (Ascii.eqb_spec c ":"); [subst; discriminate | reflexivity].
  - destruct (Ascii.eqb_spec c "-"); [subst; discriminate | reflexivity].
Qed.

Lemma String_of_nonneg n :
  0 <= n ->
  exists d, d <> Decimal.Nil /\
            String_of n = DecimalString.NilEmpty.string_of_uint d /\
            Z.of_uint d = n.
Proof.
  intros H. destruct n as [|p|p]; [| |lia].
  - exists (Decimal.D0 Decimal.Nil). repeat split. discriminate.
  - exists (Pos.to_uint p). split; [apply DecimalPos.Unsigned.to_uint_nonnil|].
    split.
    + unfold String_of; simpl. pose proof (DecimalPos.Unsigned.to_uint_nonnil p) as N.
      destruct (Pos.to_uint p); [contradiction | reflexivity..].
    + exact (DecimalZ.of_to (Z.pos p)).
Qed.

Lemma append_replicate_digits k s :
  digits s = true -> digits (String.append (replicate k "0") s) = true.
Proof. intros H. induction k; simpl; auto. Qed.

Lemma uint_of_padded k d :
  DecimalString.NilEmpty.uint_of_string
    (String.append (replicate k "0") (DecimalString.NilEmpty.string_of_uint d))
  = Some (Nat.iter k Decimal.D0 d).
Proof.
  induction k as [|k IH]; simpl.
  - apply DecimalString.NilEmpty.usu.
  - now rewrite IH.
Qed.

Lemma of_uint_leading_zeros k d : Z.of_uint (Nat.iter k Decimal.D0 d) = Z.of_uint d.
Proof. induction k as [|k IH]; [reflexivity | exact IH]. Qed.

Lemma readField_digits s d :
  s <> EmptyString -> digits s = true ->
  DecimalString.NilEmpty.uint_of_string s = Some d ->
  readField s = Some (Z.of_uint d).
Proof.
  intros NE D U. destruct s as [|c s']; [contradiction|].
  unfold readField, DecimalString.NilZero.int_of_string.
  simpl in D. apply andb_true_iff in D. destruct D as [Dc _].
  destruct (isDigit_plain c Dc) as [_ ->].
  unfold DecimalString.NilZero.uint_of_string. now rewrite U.
Qed.

Lemma readField_padStart n :
  0 <= n -> readField (padStart 2 "0" (String_of n)) = Some n.
Proof.
  intros H. destruct (String_of_nonneg n H) as (d & N & E & V).
  unfold padStart. rewrite E.
  set (k := (2 - String.length (DecimalString.NilEmpty.string_of_uint d))%nat).
  rewrite (readField_digits _ (Nat.iter k Decimal.D0 d)).
  - now rewrite of_uint_leading_zeros, V.
  - destruct k; simpl; [|discriminate]. destruct d; simpl; congruence.
  - apply append_replicate_digits, digits_of_uint.
  - apply uint_of_padded.
Qed.

Lemma digits_padStart n : 0 <= n -> digits (padStart 2 "0" (String_of n)) = true.
Proof.
  intros H. destruct (String_of_nonneg n H) as (d & N & E & V).
  unfold padStart. rewrite E. apply append_replicate_digits, digits_of_uint.
Qed.

Lemma splitColon_digits f : digits f = true -> splitColon f = [f].
Proof.
  induction f as [|c f IH]; simpl; [reflexivity|].
  intros D. apply andb_true_iff in D. destruct D as [Dc Df].
  destruct (isDigit_plain c Dc) as [-> _]. now rewrite (IH Df).
Qed.

Lemma splitColon_field f r :
  digits f = true ->
  splitColon (String.append f (String ":" r)) = f :: splitColon r.
Proof.
  induction f as [|c f IH]; simpl; [reflexivity|].
  intros D. apply andb_true_iff in D. destruct D as [Dc Df].
  destruct (isDigit_plain c Dc) as [-> _]. now rewrite (IH Df).
Qed.

Lemma seconds_recomposed t :
  0 <= t -> 3600 * (t / 3600) + 60 * (Z.rem t 3600 / 60) + Z.rem t 60 = t.
Proof.
  intros H. rewrite !Z.rem_mod_nonneg by lia.
  Z.to_euclidean_division_equations. lia.
Qed.

Lemma readDuration_fmtDuration ms :
  0 <= ms -> readDuration (fmtDuration ms) = Some (ms / 1000).
Proof.
  intros H.
  assert (T : 0 <= ms / 1000) by (apply Z.div_pos; lia).
  assert (Hh : 0 <= ms / 1000 / 3600) by (apply Z.div_pos; lia).
  assert (Hm : 0 <= Z.rem (ms / 1000) 3600 / 60).
  { rewrite Z.rem_mod_nonneg by lia. Z.to_euclidean_division_equations. lia. }
  assert (Hs : 0 <= Z.rem (ms / 1000) 60).
  { rewrite Z.rem_mod_nonneg by lia. Z.to_euclidean_division_equations. lia. }
  unfold readDuration, fmtDuration. cbv zeta.
  change (String.append colon) with (String ":"%char).
  rewrite splitColon_field by (now apply digits_padStart).
  rewrite splitColon_field by (now apply digits_padStart).
  rewrite splitColon_digits by (now apply digits_padStart).
  rewrite !readField_padStart by assumption.
  now rewrite seconds_recomposed.
Qed.

(** X2. For a duration from 0 up to 2^53 ms, where the doubles of the
    source hold every value exactly, the text of [fmtDuration] (and of the
    page's [fmtDur]) reads back, field by field between the colons, as the
    whole number of seconds of the duration: minutes and seconds stay under
    60 and the hours are not wrapped. *)
Theorem fmtDuration_reads_back :
  forall ms : Z,
    0 <= ms < 2 ^ 53 ->
    readDuration (fmtDuration ms) = Some (ms / 1000) /\
    readDuration (fmtDur ms) = Some (ms / 1000) /\
    0 <= Z.rem (ms / 1000) 3600 / 60 < 60 /\
    0 <= Z.rem (ms / 1000) 60 < 60.
Proof.
  intros ms [H _].
  assert (T : 0 <= ms / 1000) by (apply Z.div_pos; lia).
  assert (Hh : 0 <= ms / 1000 / 3600) by (apply Z.div_pos; lia).
  assert (Hm : 0 <= Z.rem (ms / 1000) 3600 / 60 < 60).
  { rewrite Z.rem_mod_nonneg by lia. Z.to_euclidean_division_equations. lia. }
  assert (Hs : 0 <= Z.rem (ms / 1000) 60 < 60).
  { rewrite Z.rem_mod_nonneg by lia. Z.to_euclidean_division_equations. lia. }
  pose proof (readDuration_fmtDuration ms H) as R.
  repeat split; try lia; exact R.
Qed.

Lemma fmtDuration_reads_back_witness :
  0 <= 3661999 < 2 ^ 53 /\
  readDuration (fmtDuration 3661999) = Some 3661 /\
  readDuration (fmtDur 3661999) = Some 3661 /\
  fmtDuration 3661999 = "01:01:01"%string /\
  0 <= Z.rem (3661999 / 1000) 3600 / 60 < 60 /\
  0 <= Z.rem (3661999 / 1000) 60 < 60.
Proof.
  assert (B : 0 <= 3661999 < 2 ^ 53) by (split; [discriminate | reflexivity]).
  destruct (fmtDuration_reads_back 3661999 B) as (R1 & R2 & M & S).
  split; [exact B|]. split; [exact R1|]. split; [exact R2|].
  split; [reflexivity|]. split; [exact M | exact S].
Defined.

Lemma length_append a b :
  String.length (String.append a b) = (String.length a + String.length b)%nat.
Proof. induction a as [|c a IH]; simpl; [reflexivity | now rewrite IH]. Qed.

Lemma length_replicate k c : String.length (replicate k c) = k.
Proof. induction k as [|k IH]; simpl; [reflexivity | now rewrite IH]. Qed.

Lemma length_padStart n c s :
  String.length (padStart n c s) = Nat.max n (String.length s).
Proof. unfold padStart. rewrite length_append, length_replicate. lia. Qed.

Lemma length_String_of_small n :
  0 <= n < 100 -> (String.length (String_of n) <= 2)%nat.
Proof.
  intros H.
  assert (A : forallb (fun k => (String.length (String_of (Z.of_nat k)) <=? 2)%nat)
                      (seq 0 100) = true) by (vm_compute; reflexivity).
  rewrite forallb_forall in A.
  specialize (A (Z.to_nat n)). rewrite Z2Nat.id in A by lia.
  apply Nat.leb_le, A, in_seq. lia.
Qed.

Lemma length_fmtDuration ms :
  String.length (fmtDuration ms) =
  (Nat.max 2 (String.length (String_of (ms / 1000 / 3600))) + 1
   + Nat.max 2 (String.length (String_of (Z.rem (ms / 1000) 3600 / 60))) + 1
   + Nat.max 2 (String.length (String_of (Z.rem (ms / 1000) 60))))%nat.
Proof.
  unfold fmtDuration. cbv zeta.
  rewrite !length_append, !length_padStart. simpl String.length. lia.
Qed.

(** X3. The text of [fmtDuration] has at least eight characters when the
    duration is not negative, and exactly eight, two per field, under one
    hundred hours. *)
Theorem fmtDuration_width :
  forall ms : Z,
    0 <= ms ->
    (8 <= String.length (fmtDuration ms))%nat /\
    (ms < 360000000 -> String.length (fmtDuration ms) = 8%nat).
Proof.
  intros ms H. rewrite length_fmtDuration.
  split; [lia|]. intros Lt.
  assert (T : 0 <= ms / 1000) by (apply Z.div_pos; lia).
  assert (Hh : 0 <= ms / 1000 / 3600 < 100).
  { Z.to_euclidean_division_equations. lia. }
  assert (Hm : 0 <= Z.rem (ms / 1000) 3600 / 60 < 100).
  { rewrite Z.rem_mod_nonneg by lia. Z.to_euclidean_division_equations. lia. }
  assert (Hs : 0 <= Z.rem (ms / 1000) 60 < 100).
  { rewrite Z.rem_mod_nonneg by lia. Z.to_euclidean_division_equations. lia. }
  pose proof (length_String_of_small _ Hh).
  pose proof (length_String_of_small _ Hm).
  pose proof (length_String_of_small _ Hs).
  lia.
Qed.

Lemma fmtDuration_width_witness :
  (8 <= String.length (fmtDuration 3661999))%nat /\
  (3661999 < 360000000 -> String.length (fmtDuration 3661999) = 8%nat).
Proof. apply (fmtDuration_width 3661999). lia. Defined.

(** ** The comparator of the sort *)

(** X4. [compareEvents] is a consistent comparator: swapping the arguments
    negates the result, "not after" is transitive, and the result is zero
    exactly for events of the same instant and type. *)
Theorem compareEvents_consistent :
  forall a b c : event,
    compareEvents a b = - compareEvents b a /\
    (compareEvents a b <= 0 -> compareEvents b c <= 0 -> compareEvents a c <= 0) /\
    (compareEvents a b = 0 <-> ev_t a = ev_t b /\ ev_type a = ev_type b).
Proof.
  intros a b c. unfold compareEvents.
  destruct (Z.eqb_spec (ev_t a) (ev_t b)), (Z.eqb_spec (ev_t b) (ev_t a)),
    (Z.eqb_spec (ev_t b) (ev_t c)), (Z.eqb_spec (ev_t a) (ev_t c)); lia.
Qed.

(** ** More on the inactivity sweep *)

Lemma snoc_inj {A} (l : list A) x y : l ++ [x] = l ++ [y] -> x = y.
Proof. intros E. apply app_inv_head in E. now injection E. Qed.

Lemma closePlayer_unchanged_iff now p :
  closePlayer now p = p <-> (~ last_open p \/ isPlayingNow now p = true).
Proof.
  unfold closePlayer, last_open, isPlayingNow.
  destruct (lastOf_cases (sessions p)) as [[E ->]|[pre [l [E ->]]]].
  - split; [|reflexivity]. intros _. left. intros (l & L & _). discriminate.
  - destruct l as [a [e|]].
    + split; [|reflexivity]. intros _. left. intros (l & [= <-] & O). discriminate.
    + destruct (lastMatchAt p) as [T|] eqn:L.
      * unfold minutesBetween, isoToDT, Qgt_bool.
        destruct (Qle_bool (Qabs ((now - T) # 60000)) (inject_Z INACTIVITY_MINUTES));
          simpl.
        -- split; [auto | reflexivity].
        -- rewrite (set_last_end_snoc T p pre _ E). split.
           ++ intros C. apply (f_equal sessions) in C. simpl in C.
              rewrite E in C. apply snoc_inj in C. discriminate.
           ++ intros [N|N]; [|discriminate]. exfalso. apply N. eauto.
      * rewrite (set_last_end_snoc now p pre _ E). split.
        -- intros C. apply (f_equal sessions) in C. simpl in C.
           rewrite E in C. apply snoc_inj in C. discriminate.
        -- intros [N|N]; [|discriminate]. exfalso. apply N. eauto.
Qed.

Lemma closePlayer_open_playing now p :
  last_open (closePlayer now p) -> isPlayingNow now (closePlayer now p) = true.
Proof.
  intros O.
  destruct (closePlayer_cases now p) as [U|(pre & l & e & E & _ & _ & C)].
  - rewrite U in *. apply closePlayer_unchanged_iff in U.
    destruct U; [contradiction | assumption].
  - rewrite C in O. destruct O as (l' & L & O). simpl in L.
    rewrite lastOf_snoc in L. injection L as <-. discriminate.
Qed.

Lemma closePlayer_idempotent now p :
  closePlayer now (closePlayer now p) = closePlayer now p.
Proof.
  destruct (closePlayer_cases now p) as [U|(pre & l & e & E & _ & _ & C)].
  - now rewrite !U.
  - rewrite C. apply closePlayer_unchanged_iff. left.
    intros (l' & L & O). simpl in L. rewrite lastOf_snoc in L.
    injection L as <-. discriminate.
Qed.

(** X5. The sweep leaves a player's entry as it is exactly when the
    player has no open last session or is playing now at the clock read;
    otherwise the entry changes. *)
Theorem sweep_changes_only_stale_players :
  forall (now : Z) (w : world) (k : string) (p : player),
    lookup k (players (mem w)) = Some p ->
    exists w',
      closeInactiveSessions now w = Some (tt, w') /\
      (lookup k (players (mem w')) = Some p <->
       (~ last_open p \/ isPlayingNow now p = true)).
Proof.
  intros now w k p L. eexists. split; [apply closeInactive_run|].
  cbn [mem players]. rewrite lookup_map_values, L. cbn [option_map].
  rewrite <- closePlayer_unchanged_iff. split; congruence.
Qed.

Lemma sweep_changes_only_stale_players_witness :
  exists w',
    closeInactiveSessions 600000 store_open = Some (tt, w') /\
    (lookup "Cronoxis" (players (mem w')) = Some cronoxis_open <->
     (~ last_open cronoxis_open \/ isPlayingNow 600000 cronoxis_open = true)).
Proof.
  apply (sweep_changes_only_stale_players 600000 store_open "Cronoxis" cronoxis_open).
  reflexivity.
Defined.

Lemma In_values_map g l p' :
  In p' (values (map (fun kp => (fst kp, g (snd kp))) l)) ->
  exists p, In p (values l) /\ p' = g p.
Proof.
  unfold values. rewrite map_map. simpl. intros IN.
  apply in_map_iff in IN. destruct IN as ((k & p) & <- & IN).
  exists p. split; [|reflexivity]. apply in_map_iff. now exists (k, p).
Qed.

Lemma only_open_is_last p s :
  one_open_last (sessions p) -> In s (sessions p) -> end_ s = None -> last_open p.
Proof.
  unfold one_open_last, last_open. intros F IN O.
  destruct (lastOf_cases (sessions p)) as [[E _]|(pre & l & E & L)].
  - rewrite E in IN. contradiction.
  - rewrite E in F, IN. rewrite removelast_snoc in F.
    apply in_app_or in IN. destruct IN as [IN|[<-|[]]].
    + rewrite Forall_forall in F. exfalso. exact (F s IN O).
    + exists l. auto.
Qed.

Lemma open_playing_events now st p s a :
  In p (values (players st)) -> In s (sessions p) ->
  end_ s = None -> isPlayingNow now p = true -> start s = Some a ->
  In (mkEvent a 1 (name p)) (buildEvents now st) /\
  In (mkEvent now (-1) (name p)) (buildEvents now st).
Proof.
  intros INp INs O I S.
  pose proof (sessionEvents_open_playing now p s a O I S) as Ev.
  split; unfold buildEvents, playerEvents;
    apply in_flat_map; exists p; (split; [assumption|]);
    apply in_flat_map; exists s; (split; [assumption|]); rewrite Ev; simpl; auto.
Qed.

(** X6. After a sweep, every player whose last session is still open is
    playing now at the instant the sweep read.  In a log with at most one
    open session, the last (the shape of every log grown from the default
    state), an open session is that last one: its player is playing now, and
    its opening at [start] and its closing at the clock read are among the
    events [computeOverlaps] builds at that instant.  Nothing is said of an
    open session that is not the last of its log: the sweep does not look at
    it. *)
Theorem after_sweep_open_sessions_are_live :
  forall (now : Z) (w : world),
    exists w',
      closeInactiveSessions now w = Some (tt, w') /\
      (forall p, In p (values (players (mem w'))) ->
                 last_open p -> isPlayingNow now p = true) /\
      (forall p s, In p (values (players (mem w'))) ->
                   one_open_last (sessions p) ->
                   In s (sessions p) -> end_ s = None ->
                   isPlayingNow now p = true /\
                   forall a, start s = Some a ->
                     In (mkEvent a 1 (name p)) (buildEvents now (mem w')) /\
                     In (mkEvent now (-1) (name p)) (buildEvents now (mem w'))).
Proof.
  intros now w. eexists. split; [apply closeInactive_run|].
  cbn [mem].
  assert (P : forall p',
             In p' (values (map (fun kp => (fst kp, closePlayer now (snd kp)))
                                (players (mem w)))) ->
             last_open p' -> isPlayingNow now p' = true).
  { intros p' IN O.
    apply In_values_map in IN. destruct IN as (p & _ & ->).
    now apply closePlayer_open_playing. }
  split; [exact P|].
  intros p s IN ONE INs O.
  assert (I : isPlayingNow now p = true).
  { apply P; [assumption|]. now apply only_open_is_last with s. }
  split; [exact I|]. intros a S.
  now apply open_playing_events with s.
Qed.

(** X7. Sweeping twice at the same clock read is sweeping once. *)
Theorem sweep_idempotent :
  forall (now : Z) (w : world),
    (closeInactiveSessions now ;;; closeInactiveSessions now) w
    = closeInactiveSessions now w.
Proof.
  intros now w. unfold bind. rewrite closeInactive_run, closeInactive_run.
  cbn [mem players latestMatch createdAt disk].
  do 3 f_equal. f_equal. rewrite map_map. apply map_ext.
  intros [k p]. simpl. now rewrite closePlayer_idempotent.
Qed.

(** X8. The defensive branch: a player whose last session is open and who
    has no [lastMatchAt] gets that session closed at the clock read of the
    sweep, whatever the instant; the rest of the entry is as before. *)
Theorem sweep_closes_ungrounded_session_now :
  forall (now : Z) (w : world) (k : string) (p : player)
         (ss : list session) (s : session),
    lookup k (players (mem w)) = Some p ->
    sessions p = ss ++ [s] ->
    end_ s = None ->
    lastMatchAt p = None ->
    exists w',
      closeInactiveSessions now w = Some (tt, w') /\
      lookup k (players (mem w')) =
      Some (mkPlayer (name p) (url p) (lastMatchId p) None
                     (ss ++ [mkSession (start s) (Some now)])).
Proof.
  intros now w k p ss s L E O A.
  eexists. split; [apply closeInactive_run|].
  cbn [mem players]. rewrite lookup_map_values, L. cbn [option_map].
  f_equal. unfold closePlayer. rewrite E, lastOf_snoc.
  destruct s as [a e]; simpl in O; subst e.
  rewrite A, (set_last_end_snoc now p ss _ E), A. reflexivity.
Qed.

Lemma sweep_closes_ungrounded_session_now_witness :
  exists w',
    closeInactiveSessions 1260000 store_ungrounded = Some (tt, w') /\
    lookup "Cronoxis" (players (mem w')) =
    Some (mkPlayer (name ungrounded) (url ungrounded) (lastMatchId ungrounded) None
                   ([] ++ [mkSession (start (mkSession (Some 1200000) None))
                                     (Some 1260000)])).
Proof.
  apply (sweep_closes_ungrounded_session_now
           1260000 store_ungrounded "Cronoxis" ungrounded []
           (mkSession (Some 1200000) None)); reflexivity.
Defined.

(** ** Runs of the operations *)

Lemma step_lookup o w w' k p :
  step o w = Some (tt, w') ->
  lookup k (players (mem w)) = Some p ->
  exists p',
    lookup k (players (mem w')) = Some p' /\
    (p' = p \/ (exists i, p' = acceptMatch i p) \/ (exists now, p' = closePlayer now p)).
Proof.
  intros S L.
  destruct (step_cases o w w' S) as [E|[(r & i & ok & q & _ & Lq & _ & E)|(now & _ & E)]];
    rewrite E.
  - eauto.
  - destruct (String.eqb_spec k (r_name r)) as [->|N].
    + rewrite lookup_update_same, L. simpl.
      eexists. split; [reflexivity|]. right; left. now exists i.
    + rewrite lookup_update_other by assumption. eauto.
  - rewrite lookup_map_values, L. simpl.
    eexists. split; [reflexivity|]. right; right. now exists now.
Qed.

Lemma step_values o w w' p' :
  step o w = Some (tt, w') ->
  In p' (values (players (mem w'))) ->
  exists p,
    In p (values (players (mem w))) /\
    (p' = p \/ (exists i, p' = acceptMatch i p) \/ (exists now, p' = closePlayer now p)).
Proof.
  intros S IN.
  destruct (step_cases o w w' S) as [E|[(r & i & ok & q & _ & Lq & _ & E)|(now & _ & E)]];
    rewrite E in IN.
  - eauto.
  - clear - IN. unfold values in *.
    induction (players (mem w)) as [|[k0 p0] l IH]; simpl in IN; [contradiction|].
    destruct (String.eqb (r_name r) k0); simpl in IN.
    + destruct IN as [<-|IN].
      * exists p0. split; [now left|]. right; left. now exists i.
      * exists p'. split; [now right | now left].
    + destruct IN as [<-|IN].
      * exists p0. split; [now left | now left].
      * destruct (IH IN) as (p & INp & C). exists p. split; [now right | exact C].
  - apply In_values_map in IN. destruct IN as (p & INp & ->). eauto 6.
Qed.

Lemma run_all_players (P : player -> Prop) :
  (forall i p, P p -> P (acceptMatch i p)) ->
  (forall now p, P p -> P (closePlayer now p)) ->
  forall ops w w',
    run ops w = Some (tt, w') -> all_players P w -> all_players P w'.
Proof.
  intros HA HC. induction ops as [|o ops IH]; intros w w' R H.
  - simpl in R. injection R as <-. assumption.
  - simpl in R. unfold bind in R.
    destruct (step o w) as [[[] w1]|] eqn:S; [|discriminate].
    apply (IH w1 w' R). unfold all_players in *.
    apply Forall_forall. intros p' IN.
    destruct (step_values o w w1 p' S IN) as (p & INp & C).
    rewrite Forall_forall in H. specialize (H p INp).
    destruct C as [->|[(i & ->)|(now & ->)]]; auto.
Qed.

Lemma acceptMatch_lastMatchId i p : lastMatchId (acceptMatch i p) = Some (matchId i).
Proof.
  unfold acceptMatch. destruct (lastOf (sessions p)) as [[a [e|]]|]; reflexivity.
Qed.

Lemma closePlayer_pointers now p :
  lastMatchId (closePlayer now p) = lastMatchId p /\
  lastMatchAt (closePlayer now p) = lastMatchAt p /\
  name (closePlayer now p) = name p.
Proof.
  destruct (closePlayer_cases now p) as [->|(pre & l & e & _ & _ & _ & ->)]; auto.
Qed.

Lemma closePlayer_nonempty now p :
  sessions (closePlayer now p) <> [] -> sessions p <> [].
Proof.
  destruct (closePlayer_cases now p) as [->|(pre & l & e & E & _ & _ & ->)]; [auto|].
  intros _. rewrite E. destruct pre; discriminate.
Qed.

Lemma run_total ops :
  forall w, roster_present (mem w) -> Forall on_roster ops ->
            exists w', run ops w = Some (tt, w').
Proof.
  intros w RP OR. destruct (run_invariant ops w RP OR) as (w' & R & _). eauto.
Qed.

(** X9. From the default state, after any run of polls of roster players,
    sweeps and saves, every player has [lastMatchId] and [lastMatchAt] both
    set or both [null], and has them set as soon as the log holds a session:
    the defensive branch of the sweep is never taken. *)
Theorem pointers_set_together :
  forall (c : Z) (d : dataFile) (ops : list op),
    Forall on_roster ops ->
    exists w,
      run ops (mkWorld (defaultState c) d) = Some (tt, w) /\
      forall p, In p (values (players (mem w))) -> pointers_ok p.
Proof.
  intros c d ops OR.
  destruct (run_total ops (mkWorld (defaultState c) d)
              (defaultState_roster_present c) OR) as (w & R).
  exists w. split; [exact R|]. apply Forall_forall.
  apply (run_all_players pointers_ok) with (3 := R).
  - intros i p _. unfold pointers_ok.
    rewrite acceptMatch_lastMatchId, acceptMatch_lastMatchAt.
    repeat split; discriminate.
  - intros now p (I & N). unfold pointers_ok.
    destruct (closePlayer_pointers now p) as (-> & -> & _).
    split; [assumption|]. intros NE. apply N. now apply closePlayer_nonempty in NE.
  - apply Forall_forall. intros p IN. unfold pointers_ok.
    rewrite (defaultState_no_sessions c p IN).
    unfold defaultState, values in IN; cbn [players mem] in IN. rewrite map_map in IN.
    apply in_map_iff in IN. destruct IN as (r & <- & _). simpl. tauto.
Qed.

Lemma pointers_set_together_witness :
  exists w,
    run forward_ops (mkWorld (defaultState 0) NoFile) = Some (tt, w) /\
    forall p, In p (values (players (mem w))) -> pointers_ok p.
Proof.
  apply (pointers_set_together 0 NoFile forward_ops).
  unfold forward_ops.
  constructor; [simpl; do 3 right; left; reflexivity|].
  constructor; [simpl; do 3 right; left; reflexivity|].
  constructor; [exact I|]. constructor.
Defined.

Lemma step_state o w w' :
  step o w = Some (tt, w') ->
  mem w' = mem w
  \/ (exists r i ok p,
        o = Observe r (Some i) ok /\
        lookup (r_name r) (players (mem w)) = Some p /\
        lastMatchId p <> Some (matchId i) /\
        w' = acceptedWorld r i ok w)
  \/ (exists now,
        o = Sweep now /\
        mem w' =
        mkState (map (fun kp => (fst kp, closePlayer now (snd kp))) (players (mem w)))
                (latestMatch (mem w)) (createdAt (mem w))).
Proof.
  destruct o as [r [i|] ok|now|ok]; cbn [step].
  - destruct (lookup (r_name r) (players (mem w))) as [p|] eqn:L.
    + destruct (option_string_eqb (Some (matchId i)) (lastMatchId p)) eqn:D.
      * apply option_string_eqb_eq in D.
        rewrite (scanPlayer_duplicate r i ok w p L (eq_sym D)).
        intros [= <-]. now left.
      * assert (N : lastMatchId p <> Some (matchId i)).
        { intros E. rewrite E in D. simpl in D. rewrite String.eqb_refl in D. discriminate. }
        rewrite (scanPlayer_accepted r i ok w p L N).
        intros [= <-]. right; left. exists r, i, ok, p. auto.
    + rewrite (scanPlayer_absent r i ok w L). discriminate.
  - intros [= <-]. now left.
  - rewrite closeInactive_run. intros [= <-]. right; right. eauto.
  - unfold saveState. intros [= <-]. left. now destruct ok.
Qed.

Lemma run_state_invariant (I : state -> Prop) :
  (forall o w w', step o w = Some (tt, w') -> I (mem w) -> I (mem w')) ->
  forall ops w w', run ops w = Some (tt, w') -> I (mem w) -> I (mem w').
Proof.
  intros HS. induction ops as [|o ops IH]; intros w w' R H.
  - simpl in R. injection R as <-. assumption.
  - simpl in R. unfold bind in R.
    destruct (step o w) as [[[] w1]|] eqn:S; [|discriminate].
    apply (IH w1 w' R). eapply HS; eassumption.
Qed.

Lemma mem_acceptedWorld r i ok w :
  mem (acceptedWorld r i ok w) =
  mkState (update (r_name r) (acceptMatch i) (players (mem w)))
          (Some (mkLatest (r_name r) (matchId i) (atISO i)))
          (createdAt (mem w)).
Proof. reflexivity. Qed.

Lemma step_latest_ok o w w' :
  step o w = Some (tt, w') -> latest_ok (mem w) -> latest_ok (mem w').
Proof.
  intros S H.
  destruct (step_state o w w' S) as [E|[(r & i & ok & p & _ & L & _ & ->)|(now & _ & E)]].
  - now rewrite E.
  - rewrite mem_acceptedWorld. unfold latest_ok; cbn [latestMatch players lm_player
      lm_matchId lm_at].
    exists (acceptMatch i p). rewrite lookup_update_same, L.
    repeat split; [apply acceptMatch_lastMatchId | apply acceptMatch_lastMatchAt].
  - rewrite E. unfold latest_ok in *; cbn [latestMatch players].
    destruct (latestMatch (mem w)) as [l|].
    + destruct H as (p & L & I1 & I2). exists (closePlayer now p).
      rewrite lookup_map_values, L.
      destruct (closePlayer_pointers now p) as (-> & -> & _). auto.
    + apply Forall_values_map; [|assumption].
      intros p Hp. now destruct (closePlayer_pointers now p) as (-> & _).
Qed.

(** X10. From the default state, after any run of polls of roster players,
    sweeps and saves, [latestMatch] is [null] while no player has a
    [lastMatchId], and otherwise names a stored player whose [lastMatchId]
    and [lastMatchAt] are the ones it records. *)
Theorem latestMatch_is_a_players_last_match :
  forall (c : Z) (d : dataFile) (ops : list op),
    Forall on_roster ops ->
    exists w,
      run ops (mkWorld (defaultState c) d) = Some (tt, w) /\
      latest_ok (mem w).
Proof.
  intros c d ops OR.
  destruct (run_total ops (mkWorld (defaultState c) d)
              (defaultState_roster_present c) OR) as (w & R).
  exists w. split; [exact R|].
  apply (run_state_invariant latest_ok step_latest_ok _ _ _ R).
  unfold latest_ok, defaultState, values; cbn [mem latestMatch players].
  rewrite map_map. apply Forall_forall. intros p IN.
  apply in_map_iff in IN. destruct IN as (r & <- & _). reflexivity.
Qed.

Lemma latestMatch_is_a_players_last_match_witness :
  exists w,
    run forward_ops (mkWorld (defaultState 0) NoFile) = Some (tt, w) /\
    latest_ok (mem w).
Proof.
  apply (latestMatch_is_a_players_last_match 0 NoFile forward_ops).
  unfold forward_ops.
  constructor; [simpl; do 3 right; left; reflexivity|].
  constructor; [simpl; do 3 right; left; reflexivity|].
  constructor; [exact I|]. constructor.
Defined.

(** ** The log only grows *)

Lemma continues_refl ss : continues ss ss.
Proof. split; [auto | exists []; now rewrite app_nil_r]. Qed.

Lemma continues_trans ss1 ss2 ss3 :
  continues ss1 ss2 -> continues ss2 ss3 -> continues ss1 ss3.
Proof.
  intros (K1 & m1 & E1) (K2 & m2 & E2). split.
  - intros i s N C. apply K2; auto.
  - exists (m1 ++ m2). now rewrite E2, E1, app_assoc.
Qed.

Lemma acceptMatch_continues i p : continues (sessions p) (sessions (acceptMatch i p)).
Proof.
  destruct (acceptMatch_sessions i p) as [[-> _]|[-> _]]; [apply continues_refl|].
  split.
  - intros j s N _. rewrite nth_error_app1; [assumption|].
    apply nth_error_Some. congruence.
  - eexists. apply map_app.
Qed.

Lemma closePlayer_continues now p : continues (sessions p) (sessions (closePlayer now p)).
Proof.
  destruct (closePlayer_cases now p) as [->|(pre & l & e & E & O & _ & ->)];
    [apply continues_refl|].
  cbn [sessions]. rewrite E. split.
  - intros j s N C.
    destruct (Nat.lt_ge_cases j (List.length pre)) as [Lt|Ge].
    + rewrite nth_error_app1 in * by assumption. assumption.
    + rewrite nth_error_app2 in N by assumption.
      destruct (j - List.length pre)%nat as [|n]; simpl in N.
      * injection N as <-. contradiction.
      * destruct n; discriminate.
  - exists []. now rewrite !map_app, app_nil_r.
Qed.

Lemma acceptMatch_name i p : name (acceptMatch i p) = name p.
Proof.
  unfold acceptMatch. destruct (lastOf (sessions p)) as [[a [e|]]|]; reflexivity.
Qed.

(** X11. No run of the operations deletes or rewrites what the log of a
    player holds: every closed session stays at its index as it is, the
    logged starts stay a prefix of the later starts, and the entry keeps its
    key, name and URL. *)
Theorem log_is_append_only :
  forall (ops : list op) (w w' : world) (k : string) (p : player),
    run ops w = Some (tt, w') ->
    lookup k (players (mem w)) = Some p ->
    exists p',
      lookup k (players (mem w')) = Some p' /\
      continues (sessions p) (sessions p') /\
      name p' = name p /\ url p' = url p.
Proof.
  induction ops as [|o ops IH]; intros w w' k p R L.
  - simpl in R. injection R as <-. exists p. split; [assumption|].
    split; [apply continues_refl | auto].
  - simpl in R. unfold bind in R.
    destruct (step o w) as [[[] w1]|] eqn:S; [|discriminate].
    destruct (step_lookup o w w1 k p S L) as (p1 & L1 & C).
    destruct (IH w1 w' k p1 R L1) as (p' & L' & K & N & U).
    exists p'. split; [assumption|].
    destruct C as [->|[(i & ->)|(now & ->)]].
    + auto.
    + split; [eapply continues_trans; [apply acceptMatch_continues | exact K]|].
      now rewrite N, U, acceptMatch_name, acceptMatch_url.
    + split; [eapply continues_trans; [apply closePlayer_continues | exact K]|].
      rewrite N, U, closePlayer_url.
      now destruct (closePlayer_pointers now p) as (_ & _ & ->).
Qed.

Lemma log_is_append_only_witness :
  exists p',
    lookup "Cronoxis" (players (mem store_later)) = Some p' /\
    continues (sessions cronoxis_open) (sessions p') /\
    name p' = name cronoxis_open /\ url p' = url cronoxis_open.
Proof.
  apply (log_is_append_only later_ops store_open store_later "Cronoxis" cronoxis_open);
    reflexivity.
Defined.

Lemma identities_update k f ps :
  (forall p, name (f p) = name p /\ url (f p) = url p) ->
  map (fun kp => (fst kp, name (snd kp), url (snd kp))) (update k f ps)
  = map (fun kp => (fst kp, name (snd kp), url (snd kp))) ps.
Proof.
  intros Hf. induction ps as [|[k0 p0] ps IH]; simpl; [reflexivity|].
  destruct (String.eqb k k0); simpl.
  - destruct (Hf p0) as [-> ->]. reflexivity.
  - now rewrite IH.
Qed.

Lemma step_identities o w w' :
  step o w = Some (tt, w') -> identities (mem w') = identities (mem w).
Proof.
  intros S. unfold identities.
  destruct (step_cases o w w' S) as [E|[(r & i & ok & q & _ & Lq & _ & E)|(now & _ & E)]];
    rewrite E.
  - reflexivity.
  - apply identities_update. intros p.
    now rewrite acceptMatch_name, acceptMatch_url.
  - rewrite map_map. apply map_ext. intros [k p]. simpl.
    rewrite closePlayer_url. now destruct (closePlayer_pointers now p) as (_ & _ & ->).
Qed.

(** X12. No run of the operations adds, removes, renames or reorders the
    entries of the store: the keys, names and URLs are, in order, those of
    the start. *)
Theorem roster_of_store_is_fixed :
  forall (ops : list op) (w w' : world),
    run ops w = Some (tt, w') ->
    identities (mem w') = identities (mem w).
Proof.
  induction ops as [|o ops IH]; intros w w' R.
  - simpl in R. now injection R as <-.
  - simpl in R. unfold bind in R.
    destruct (step o w) as [[[] w1]|] eqn:S; [|discriminate].
    rewrite (IH w1 w' R). exact (step_identities o w w1 S).
Qed.

Lemma roster_of_store_is_fixed_witness :
  identities (mem store_later) = identities (mem store_open).
Proof.
  apply (roster_of_store_is_fixed later_ops store_open store_later). reflexivity.
Defined.

(** ** The session log, player by player *)

Lemma run_step o ops w w' :
  run (o :: ops) w = Some (tt, w') ->
  exists w1, step o w = Some (tt, w1) /\ run ops w1 = Some (tt, w').
Proof.
  simpl. unfold bind. destruct (step o w) as [[[] w1]|]; [eauto | discriminate].
Qed.

(** One operation keeps the log of the player under [k] in order, as long
    as it is not an observation of that player that goes backwards. *)
Lemma step_player_ok_for k o w w' :
  step o w = Some (tt, w') ->
  not_backwards_for k w o = true ->
  (forall p, lookup k (players (mem w)) = Some p -> player_ok p) ->
  forall p', lookup k (players (mem w')) = Some p' -> player_ok p'.
Proof.
  intros S NB H p' L'.
  destruct (step_cases o w w' S) as [E|[(r & i & ok & p & -> & L & N & E)|(now & _ & E)]];
    rewrite E in L'.
  - auto.
  - destruct (String.eqb_spec (r_name r) k) as [Q|Q].
    + subst k. rewrite lookup_update_same, L in L'. injection L' as <-.
      cbn [not_backwards_for] in NB. rewrite String.eqb_refl in NB.
      apply acceptMatch_ok; [|auto].
      intros T LT. cbn [not_backwards] in NB. rewrite L, LT in NB.
      apply orb_true_iff in NB. destruct NB as [D|D].
      * apply option_string_eqb_eq in D. congruence.
      * now apply Z.leb_le.
    + rewrite lookup_update_other in L' by congruence. auto.
  - rewrite lookup_map_values in L'.
    destruct (lookup k (players (mem w))) as [p|] eqn:L; [|discriminate].
    injection L' as <-. apply closePlayer_ok. auto.
Qed.

Lemma run_player_ok_for k ops :
  forall w w',
    run ops w = Some (tt, w') ->
    in_order_for k ops w = true ->
    (forall p, lookup k (players (mem w)) = Some p -> player_ok p) ->
    forall p', lookup k (players (mem w')) = Some p' -> player_ok p'.
Proof.
  induction ops as [|o ops IH]; intros w w' R IO H.
  - simpl in R. injection R as <-. exact H.
  - destruct (run_step _ _ _ _ R) as (w1 & S & R1).
    cbn [in_order_for] in IO. rewrite S in IO.
    apply andb_true_iff in IO. destruct IO as [NB IO].
    apply (IH w1 w' R1 IO). eapply step_player_ok_for; eassumption.
Qed.

(** A run in which no observation at all goes backwards is in order for
    every player. *)
Lemma in_order_in_order_for k ops :
  forall w, in_order ops w = true -> in_order_for k ops w = true.
Proof.
  induction ops as [|o ops IH]; intros w IO; [reflexivity|].
  cbn [in_order in_order_for] in *.
  apply andb_true_iff in IO. destruct IO as [NB IO].
  apply andb_true_iff. split.
  - destruct o as [r i ok|now|ok]; try reflexivity.
    cbn [not_backwards_for]. now destruct (String.eqb (r_name r) k).
  - destruct (step o w) as [[[] w1]|]; auto.
Qed.

Lemma lookup_entry k p l :
  NoDup (map fst l) -> In (k, p) l -> lookup k l = Some p.
Proof.
  induction l as [|[k0 p0] l IH]; simpl; [contradiction|].
  intros ND [E|IN].
  - injection E as -> ->. now rewrite String.eqb_refl.
  - inversion ND as [|? ? NI ND']; subst.
    destruct (String.eqb_spec k k0) as [->|_]; [|auto].
    exfalso. apply NI. change k0 with (fst (k0, p)). now apply in_map.
Qed.

(** In a store with the keys and names of the default state, every entry
    is the one found under its own name. *)
Lemma identities_named s c p :
  identities s = identities (defaultState c) ->
  In p (values (players s)) -> lookup (name p) (players s) = Some p.
Proof.
  intros E IN. unfold values in IN. apply in_map_iff in IN.
  destruct IN as ([k q] & Q & IN). simpl in Q. subst q.
  assert (K : map fst (players s) = map r_name PLAYERS).
  { transitivity (map (fun t => fst (fst t)) (identities s)).
    - unfold identities. rewrite map_map. reflexivity.
    - rewrite E. reflexivity. }
  assert (N : k = name p).
  { assert (F : Forall (fun t => fst (fst t) = snd (fst t)) (identities s)).
    { rewrite E. repeat constructor. }
    rewrite Forall_forall in F.
    apply (F (k, name p, url p)). unfold identities.
    apply in_map_iff. exists (k, p). auto. }
  subst k. apply lookup_entry; [|assumption].
  rewrite K. apply PLAYERS_names_NoDup.
Qed.

(** C2, as the code has it. Every run of polls of roster players, sweeps and
    saves from the default state succeeds, and in the store it reaches every
    player has at most one open session, the last of the log, and is the
    entry found under its own name.  Player by player: when no accepted
    observation of that player is stamped earlier than that player's stored
    [lastMatchAt], whatever the observations of the other players do, the
    log of that player is moreover ordered by [start], pairwise
    non-overlapping, and has [start <= end] on its closed sessions. *)
Theorem sessions_invariant :
  forall (c : Z) (d : dataFile) (ops : list op),
    Forall on_roster ops ->
    exists w,
      run ops (mkWorld (defaultState c) d) = Some (tt, w) /\
      (forall p, In p (values (players (mem w))) -> one_open_last (sessions p)) /\
      (forall p, In p (values (players (mem w))) ->
         lookup (name p) (players (mem w)) = Some p) /\
      (forall k p,
         lookup k (players (mem w)) = Some p ->
         in_order_for k ops (mkWorld (defaultState c) d) = true ->
         chronological (sessions p) /\ non_overlapping (sessions p) /\
         Forall well_formed (sessions p)).
Proof.
  intros c d ops OR.
  destruct (run_invariant ops (mkWorld (defaultState c) d)
              (defaultState_roster_present c) OR) as (w & R & _ & I1 & _).
  exists w. split; [exact R|]. split; [|split].
  - apply Forall_forall. apply I1. apply Forall_forall.
    intros p IN. rewrite (defaultState_no_sessions c p IN). constructor.
  - intros p IN. apply identities_named with c; [|assumption].
    apply (run_state_invariant
             (fun s => identities s = identities (defaultState c))
             (fun o w0 w1 S H => eq_trans (step_identities o w0 w1 S) H)
             ops _ w R).
    reflexivity.
  - intros k p L IO.
    assert (OK : player_ok p).
    { apply (run_player_ok_for k ops _ w R IO); [|assumption].
      intros p0 L0. apply lookup_In in L0. unfold player_ok.
      cbn [mem players] in L0.
      rewrite (defaultState_no_sessions c p0 L0). repeat split; auto; constructor. }
    split; [now apply player_ok_chronological|]. destruct OK as (WF & NO & _). auto.
Qed.

Lemma sessions_invariant_witness :
  in_order two_session_ops (mkWorld (defaultState 0) NoFile) = false /\
  in_order_for "Cronoxis" two_session_ops (mkWorld (defaultState 0) NoFile) = true /\
  exists p,
    lookup "Cronoxis" (players (mem store_two_sessions)) = Some p /\
    sessions p = [mkSession (Some 0) (Some 600000); mkSession (Some 3600000) None] /\
    one_open_last (sessions p) /\
    chronological (sessions p) /\ non_overlapping (sessions p) /\
    Forall well_formed (sessions p).
Proof.
  split; [reflexivity|]. split; [reflexivity|].
  destruct (sessions_invariant 0 NoFile two_session_ops) as (w & R & O & _ & K).
  { unfold two_session_ops.
    repeat (constructor;
            [first [exact I | simpl; repeat (first [left; reflexivity | right])]|]).
    constructor. }
  vm_compute in R. injection R as <-.
  eexists. split; [vm_compute; reflexivity|]. split; [reflexivity|].
  split.
  - apply O. simpl. do 3 right. left. reflexivity.
  - apply (K "Cronoxis"%string); reflexivity.
Defined.

(** C2 as stated fails: after a match at minute 100 and the sweep that
    closes its session, a match with a new id stamped at instant 0 opens a
    session that starts before the previous one. *)
Lemma sessions_out_of_order :
  exists w p,
    run backwards_ops (mkWorld (defaultState 0) NoFile) = Some (tt, w) /\
    lookup "Cronoxis" (players (mem w)) = Some p /\
    sessions p = [mkSession (Some 6000000) (Some 6000000); mkSession (Some 0) None] /\
    ~ chronological (sessions p) /\ ~ non_overlapping (sessions p).
Proof.
  eexists. eexists. split; [vm_compute; reflexivity|].
  split; [vm_compute; reflexivity|]. split; [reflexivity|].
  split; intros H; inversion H as [|? ? _ F]; subst;
    inversion F as [|? ? (x & y & E1 & E2 & Le) _]; subst;
    simpl in E1, E2; injection E1 as <-; injection E2 as <-; lia.
Qed.

(** ** Accepted observations *)

Lemma acceptMatch_last_open i p : last_open (acceptMatch i p).
Proof.
  unfold last_open.
  destruct (acceptMatch_sessions i p) as [[-> O]|[-> _]]; [exact O|].
  rewrite lastOf_snoc. eexists. split; reflexivity.
Qed.

Lemma isPlayingNow_at_last_match T p :
  lastMatchAt p = Some T -> isPlayingNow T p = true.
Proof.
  intros L. apply isPlayingNow_spec. exists T. split; [assumption|].
  unfold windowMs, INACTIVITY_MINUTES. rewrite Z.sub_diag. simpl. lia.
Qed.

(** X13. The poll of a stored player with a match id other than the stored
    one succeeds and leaves: both pointers and [latestMatch] at the
    observation; the last session of the log open, the log being as before
    when a session was open and one session longer, started at the
    observation, otherwise; the player playing now at the instant of the
    observation; every other entry as it was; and, when the write succeeds,
    the file holding the new state. *)
Theorem accepted_observation_opens_or_extends :
  forall (r : rosterEntry) (i : matchInfo) (ok : bool) (w : world) (p : player),
    lookup (r_name r) (players (mem w)) = Some p ->
    lastMatchId p <> Some (matchId i) ->
    exists w' p',
      scanPlayer r (Some i) ok w = Some (tt, w') /\
      lookup (r_name r) (players (mem w')) = Some p' /\
      lastMatchId p' = Some (matchId i) /\
      lastMatchAt p' = Some (atISO i) /\
      latestMatch (mem w') = Some (mkLatest (r_name r) (matchId i) (atISO i)) /\
      last_open p' /\
      (last_open p -> sessions p' = sessions p) /\
      (~ last_open p ->
       sessions p' = sessions p ++ [mkSession (Some (atISO i)) None]) /\
      isPlayingNow (atISO i) p' = true /\
      (forall k, k <> r_name r ->
                 lookup k (players (mem w')) = lookup k (players (mem w))) /\
      (ok = true -> disk w' = Stored (mem w')) /\
      (ok = false -> disk w' = disk w).
Proof.
  intros r i ok w p L N.
  exists (acceptedWorld r i ok w), (acceptMatch i p).
  split; [now apply scanPlayer_accepted with p|].
  rewrite mem_acceptedWorld; cbn [players latestMatch].
  split; [now rewrite lookup_update_same, L|].
  split; [apply acceptMatch_lastMatchId|].
  split; [apply acceptMatch_lastMatchAt|].
  split; [reflexivity|].
  split; [apply acceptMatch_last_open|].
  split; [|split].
  - intros (l & Ll & O).
    destruct (acceptMatch_sessions i p) as [[E _]|[_ C]]; [exact E|].
    specialize (C l Ll). contradiction.
  - intros NO.
    destruct (acceptMatch_sessions i p) as [[_ O]|[E _]]; [contradiction | exact E].
  - split; [apply isPlayingNow_at_last_match, acceptMatch_lastMatchAt|].
    split; [intros k Nk; now apply lookup_update_other|].
    unfold acceptedWorld; cbn [disk]. split; intros ->; reflexivity.
Qed.

Lemma accepted_observation_opens_or_extends_witness :
  exists w' p',
    scanPlayer cronoxis (Some (mkInfo "m2" 600000)) true store_open = Some (tt, w') /\
    lookup (r_name cronoxis) (players (mem w')) = Some p' /\
    lastMatchId p' = Some "m2"%string /\
    lastMatchAt p' = Some 600000 /\
    latestMatch (mem w') = Some (mkLatest (r_name cronoxis) "m2" 600000) /\
    last_open p' /\
    (last_open cronoxis_open -> sessions p' = sessions cronoxis_open) /\
    (~ last_open cronoxis_open ->
     sessions p' = sessions cronoxis_open ++ [mkSession (Some 600000) None]) /\
    isPlayingNow 600000 p' = true /\
    (forall k, k <> r_name cronoxis ->
               lookup k (players (mem w')) = lookup k (players (mem store_open))) /\
    (true = true -> disk w' = Stored (mem w')) /\
    (true = false -> disk w' = disk store_open).
Proof.
  apply (accepted_observation_opens_or_extends
           cronoxis (mkInfo "m2" 600000) true store_open cronoxis_open).
  - reflexivity.
  - discriminate.
Defined.

(** X14. [ensureSessionOnNewMatch] is idempotent: a second call for the same
    player, whatever its instant, finds the session open and changes
    nothing; on a player the store does not hold both throw. *)
Theorem ensureSession_idempotent :
  forall (k : string) (a b : Z) (w : world),
    (ensureSessionOnNewMatch k a ;;; ensureSessionOnNewMatch k b) w
    = ensureSessionOnNewMatch k a w /\
    (lookup k (players (mem w)) = None -> ensureSessionOnNewMatch k a w = None).
Proof.
  intros k a b w. split.
  - destruct (lookup k (players (mem w))) as [p|] eqn:L.
    + rewrite (bind_some _ _ _ _ _ (ensureSession_some k a w p L)).
      rewrite (ensureSession_some k a w p L).
      destruct (lastOf (sessions p)) as [[st [e|]]|] eqn:EL.
      * erewrite ensureSession_some
          by (cbn [mem players]; rewrite lookup_update_same, L; reflexivity).
        cbn [sessions push_session]. now rewrite lastOf_snoc.
      * rewrite (ensureSession_some k b w p L). now rewrite EL.
      * erewrite ensureSession_some
          by (cbn [mem players]; rewrite lookup_update_same, L; reflexivity).
        cbn [sessions push_session]. now rewrite lastOf_snoc.
    + assert (F : ensureSessionOnNewMatch k a w = None).
      { unfold ensureSessionOnNewMatch. apply bind_none, getPlayer_none, L. }
      now rewrite (bind_none _ _ _ F), F.
  - intros L. unfold ensureSessionOnNewMatch. apply bind_none, getPlayer_none, L.
Qed.

(** ** A whole cycle of [scanAll] *)











(** ** More on the overlap sweep *)

Lemma sweep_fold_inv (J : sweepState -> Prop) (E : event -> Prop) :
  (forall st ev, E ev -> J st -> J (sweepStep st ev)) ->
  forall evs st, Forall E evs -> J st -> J (fold_left sweepStep evs st).
Proof.
  intros HS. induction evs as [|ev evs IH]; intros st F H; simpl; [assumption|].
  inversion F; subst. apply IH; auto.
Qed.

Lemma set_add_incl x s names : In x names -> incl s names -> incl (set_add x s) names.
Proof.
  intros Hx Hs. unfold set_add. destruct (set_has x s); [assumption|].
  apply incl_app; [assumption|]. intros y [<-|[]]. assumption.
Qed.

Lemma set_delete_incl x s names : incl s names -> incl (set_delete x s) names.
Proof.
  intros Hs y IN. apply filter_In in IN. apply Hs. tauto.
Qed.

Lemma sweepStep_names names st ev :
  In (ev_who ev) names ->
  incl (active st) names /\
    Forall (fun iv => incl (iv_players iv) names) (intervals st) ->
  incl (active (sweepStep st ev)) names /\
    Forall (fun iv => incl (iv_players iv) names) (intervals (sweepStep st ev)).
Proof.
  intros W (A & I). split.
  - unfold sweepStep; cbn [active].
    destruct (ev_type ev =? -1); [now apply set_delete_incl|].
    destruct (ev_type ev =? 1); [now apply set_add_incl | assumption].
  - destruct (sweepStep_intervals st ev) as [->|(p & _ & _ & _ & ->)]; [assumption|].
    apply Forall_app. split; [assumption|]. repeat constructor. exact A.
Qed.

Lemma buildEvents_who now s ev :
  In ev (buildEvents now s) ->
  exists p, In p (values (players s)) /\ name p = ev_who ev /\ sessions p <> [].
Proof.
  unfold buildEvents, playerEvents. intros IN.
  apply in_flat_map in IN. destruct IN as (p & INp & IN).
  apply in_flat_map in IN. destruct IN as (x & INx & IN).
  exists p. split; [assumption|]. split.
  - unfold sessionEvents in IN.
    destruct (isoToDT (start x)); [|contradiction].
    destruct (match end_ x with
              | Some e => isoToDT (Some e)
              | None => if isPlayingNow now p then Some now else None
              end); [|contradiction].
    destruct IN as [<-|[<-|[]]]; reflexivity.
  - intros E. rewrite E in INx. contradiction.
Qed.

Lemma allIntervals_names now s :
  Forall (fun iv => incl (iv_players iv) (map ev_who (buildEvents now s)))
         (allIntervals now s).
Proof.
  set (names := map ev_who (buildEvents now s)).
  unfold allIntervals, sweep.
  apply (sweep_fold_inv
           (fun st => incl (active st) names /\
                      Forall (fun iv => incl (iv_players iv) names) (intervals st))
           (fun ev => In (ev_who ev) names)).
  - intros st ev. apply sweepStep_names.
  - apply Forall_forall. intros ev IN.
    apply (proj1 (sortEvents_In _ _)) in IN.
    unfold names. apply in_map. exact IN.
  - split; [intros x [] | constructor].
Qed.

(** X17. Every participant of an emitted interval is the name of a stored
    player with a session, so [count] never exceeds the number of entries of
    the store; a store with fewer than two entries yields no interval. *)
Theorem overlap_participants_are_players :
  forall (now : Z) (s : state),
    (forall iv, In iv (allIntervals now s) ->
       (forall n, In n (iv_players iv) ->
          exists p, In p (values (players s)) /\ name p = n /\ sessions p <> []) /\
       (count iv <= List.length (players s))%nat) /\
    ((List.length (players s) < 2)%nat -> allIntervals now s = []).
Proof.
  intros now s.
  set (names := map ev_who (buildEvents now s)).
  pose proof (allIntervals_names now s) as P. fold names in P.
  destruct (allIntervals_ok now s) as [OK _].
  rewrite Forall_forall in P, OK.
  assert (Q : forall iv, In iv (allIntervals now s) ->
                         (forall n, In n (iv_players iv) ->
                            exists p, In p (values (players s)) /\ name p = n /\
                                      sessions p <> []) /\
                         (count iv <= List.length (players s))%nat).
  { intros iv IN. split.
    - intros n INn. specialize (P iv IN n INn). unfold names in P.
      apply in_map_iff in P. destruct P as (ev & <- & INev).
      exact (buildEvents_who now s ev INev).
    - destruct (OK iv IN) as (C & ND & _). rewrite C.
      replace (List.length (players s))
        with (List.length (map name (values (players s))))
        by (unfold values; now rewrite !length_map).
      apply NoDup_incl_length; [assumption|].
      intros n INn. specialize (P iv IN n INn). unfold names in P.
      apply in_map_iff in P. destruct P as (ev & <- & INev).
      destruct (buildEvents_who now s ev INev) as (p & INp & <- & _).
      now apply in_map. }
  split; [exact Q|].
  intros Lt. destruct (allIntervals now s) as [|iv ivs] eqn:E; [reflexivity|].
  exfalso. destruct (Q iv (or_introl eq_refl)) as (_ & C).
  destruct (OK iv (or_introl eq_refl)) as (_ & _ & C2 & _). lia.
Qed.

Lemma two_distinct {A} (l : list A) :
  NoDup l -> (2 <= List.length l)%nat -> exists x y, In x l /\ In y l /\ x <> y.
Proof.
  intros ND L. destruct l as [|x [|y l]]; simpl in L; try lia.
  exists x, y. repeat split; simpl; auto.
  inversion ND as [|? ? NI _]; subst. intros ->. apply NI. now left.
Qed.

Lemma buildEvents_span_who now s ev :
  In ev (buildEvents now s) -> exists sp, In sp (spans now s) /\ sp_who sp = ev_who ev.
Proof.
  rewrite buildEvents_spans. intros IN. apply in_flat_map in IN.
  destruct IN as (sp & INsp & [<-|[<-|[]]]); eauto.
Qed.

(** X18. A store whose spans all belong to one player name, and so a store
    with no span at all, yields no interval and a summary of zeros: a
    player never overlaps with themself, even on sessions that overlap. *)
Theorem lone_player_never_overlaps :
  forall (now : Z) (w : world),
    (forall sp1 sp2,
       In sp1 (spans now (mem w)) -> In sp2 (spans now (mem w)) ->
       sp_who sp1 = sp_who sp2) ->
    computeOverlaps now w = Some (mkOverlaps (mkSummary 0 0 0 0) [], w).
Proof.
  intros now w One. rewrite computeOverlaps_run.
  assert (E : allIntervals now (mem w) = []).
  { destruct (allIntervals now (mem w)) as [|iv ivs] eqn:E; [reflexivity|].
    exfalso.
    pose proof (allIntervals_names now (mem w)) as P.
    destruct (allIntervals_ok now (mem w)) as [OK _].
    rewrite E in P, OK. inversion P as [|? ? Piv _]; subst.
    inversion OK as [|? ? (C & ND & C2 & _) _]; subst.
    destruct (two_distinct (iv_players iv) ND) as (x & y & Ix & Iy & N); [lia|].
    apply Piv in Ix. apply Piv in Iy.
    apply in_map_iff in Ix. destruct Ix as (ex & <- & Ex).
    apply in_map_iff in Iy. destruct Iy as (ey & <- & Ey).
    destruct (buildEvents_span_who now (mem w) ex Ex) as (s1 & I1 & W1).
    destruct (buildEvents_span_who now (mem w) ey Ey) as (s2 & I2 & W2).
    apply N. rewrite <- W1, <- W2. now apply One. }
  rewrite E. reflexivity.
Qed.

Lemma lone_player_never_overlaps_witness :
  computeOverlaps 600000 store_open = Some (mkOverlaps (mkSummary 0 0 0 0) [], store_open).
Proof.
  apply (lone_player_never_overlaps 600000 store_open).
  intros sp1 sp2 [<-|[]] [<-|[]]. reflexivity.
Defined.

(** ** The summary on the page *)

Lemma totalMs_nonneg ivs : Forall interval_ok ivs -> 0 <= totalMs ivs.
Proof.
  induction 1 as [|iv ivs (_ & _ & _ & _ & P) F IH]; simpl; lia.
Qed.

Lemma totalMs_positive ivs : Forall interval_ok ivs -> ivs <> [] -> 0 < totalMs ivs.
Proof.
  intros F N. destruct ivs as [|iv ivs]; [contradiction|].
  inversion F as [|? ? (_ & _ & _ & _ & P) F']; subst.
  pose proof (totalMs_nonneg ivs F'). simpl. fold (totalMs ivs). lia.
Qed.

Lemma Forall_with_count (P : interval -> Prop) c ivs :
  Forall P ivs -> Forall P (with_count c ivs).
Proof.
  intros F. apply Forall_forall. intros iv IN. apply filter_In in IN.
  rewrite Forall_forall in F. apply F. tauto.
Qed.

Lemma slice_last_nil_iff {A} n (l : list A) :
  (0 < n)%nat -> (slice_last n l = [] <-> l = []).
Proof.
  intros Hn. unfold slice_last. split.
  - intros E. apply skipn_all_iff in E. apply length_zero_iff_nil. lia.
  - intros ->. reflexivity.
Qed.

(** X22. The three buckets of the summary are never negative, and the
    total [twoOrMoreMs] is positive, so [renderOverlaps] shows the "Total
    2+" part, exactly when [computeOverlaps] returns at least one
    interval. *)
Theorem total_shown_iff_some_interval :
  forall (now : Z) (w : world),
    exists r,
      computeOverlaps now w = Some (r, w) /\
      0 <= exactly2Ms (ov_summary r) /\
      0 <= exactly3Ms (ov_summary r) /\
      0 <= exactly4Ms (ov_summary r) /\
      (showsTotal (ov_summary r) = true <-> ov_intervals r <> []).
Proof.
  intros now w. eexists. split; [apply computeOverlaps_run|].
  cbn [ov_summary ov_intervals]. rewrite summarize_spec.
  cbn [exactly2Ms exactly3Ms exactly4Ms]. unfold showsTotal; cbn [twoOrMoreMs].
  destruct (allIntervals_ok now (mem w)) as [OK _].
  repeat split; try (apply totalMs_nonneg, Forall_with_count, OK).
  - rewrite buckets_cover
      by (eapply Forall_impl; [|exact OK]; intros iv (_ & _ & C & _); exact C).
    intros G E. apply slice_last_nil_iff in E; [|lia].
    rewrite E in G. discriminate.
  - rewrite buckets_cover
      by (eapply Forall_impl; [|exact OK]; intros iv (_ & _ & C & _); exact C).
    intros N. apply Z.gtb_lt. apply totalMs_positive; [assumption|].
    intros E. apply N. apply slice_last_nil_iff; [lia | assumption].
Qed.

Lemma StronglySorted_rev {A} (R : A -> A -> Prop) l :
  StronglySorted R l -> StronglySorted (fun x y => R y x) (rev l).
Proof.
  induction 1 as [|x l S IH F]; simpl; [constructor|].
  apply StronglySorted_snoc; [assumption|].
  apply Forall_forall. intros y IN. apply in_rev in IN.
  rewrite Forall_forall in F. auto.
Qed.

Lemma StronglySorted_firstn {A} (R : A -> A -> Prop) n :
  forall l, StronglySorted R l -> StronglySorted R (firstn n l).
Proof.
  induction n as [|n IH]; intros l S; [constructor|].
  destruct l as [|x l]; [constructor|]. inversion S as [|? ? S' F]; subst.
  simpl. constructor; [auto|].
  apply Forall_forall. intros y IN. rewrite Forall_forall in F. apply F.
  rewrite <- (firstn_skipn n l). apply in_or_app. now left.
Qed.

(** X23. The rows of the overlaps table are the thirty most recent of all
    the intervals the sweep emits, newest first: the server's cut to a
    hundred never hides a row, and each row ends no later than the row
    above it starts. *)
Theorem overlap_rows_are_the_newest :
  forall (now : Z) (w : world),
    exists r,
      computeOverlaps now w = Some (r, w) /\
      overlapRows r = newestFirst 30 (allIntervals now (mem w)) /\
      (List.length (overlapRows r) <= 30)%nat /\
      StronglySorted (fun above below => iv_end below <= iv_start above) (overlapRows r).
Proof.
  intros now w. eexists. split; [apply computeOverlaps_run|].
  unfold overlapRows, newestFirst; cbn [ov_intervals].
  assert (E : rev (slice_last 100 (allIntervals now (mem w)))
              = firstn 100 (rev (allIntervals now (mem w)))).
  { unfold slice_last. now rewrite firstn_rev. }
  rewrite E, firstn_firstn. change (Nat.min 30 100) with 30%nat.
  split; [reflexivity|]. split; [apply firstn_le_length|].
  apply StronglySorted_firstn.
  destruct (allIntervals_ok now (mem w)) as [_ SS].
  exact (StronglySorted_rev follows _ SS).
Qed.

(** ** Completeness of the sweep on spans that are positive and apart *)

Lemma insertEvent_NoDup x l : ~ In x l -> NoDup l -> NoDup (insertEvent x l).
Proof.
  induction l as [|y l IH]; simpl; intros NI ND.
  - repeat constructor. auto.
  - destruct (compareEvents x y <=? 0).
    + constructor; assumption.
    + inversion ND as [|? ? NIy ND']; subst. constructor.
      * rewrite insertEvent_In. intros [->|H]; [apply NI; now left | contradiction].
      * apply IH; [intros H; apply NI; now right | assumption].
Qed.

Lemma sortEvents_NoDup l : NoDup l -> NoDup (sortEvents l).
Proof.
  induction 1 as [|x l NI ND IH]; simpl; [constructor|].
  apply insertEvent_NoDup; [|assumption]. now rewrite sortEvents_In.
Qed.

Lemma set_add_keeps x y s : In y s -> In y (set_add x s).
Proof.
  intros H. unfold set_add. destruct (set_has x s); [assumption|].
  apply in_or_app. now left.
Qed.

Lemma set_add_has x s : In x (set_add x s).
Proof.
  unfold set_add. destruct (set_has x s) eqn:E.
  - now apply set_has_In.
  - apply in_or_app. right. now left.
Qed.

Lemma set_delete_keeps x y s : x <> y -> In y s -> In y (set_delete x s).
Proof.
  intros N H. apply filter_In. split; [assumption|].
  apply negb_true_iff, String.eqb_neq, N.
Qed.

Lemma two_members {A} (l : list A) x y :
  In x l -> In y l -> x <> y -> (2 <= List.length l)%nat.
Proof.
  intros Hx Hy N. destruct l as [|a [|b l]].
  - destruct Hx.
  - destruct Hx as [<-|[]], Hy as [<-|[]]. contradiction.
  - simpl. lia.
Qed.

Lemma sweepStep_emits st ev p :
  prevT st = Some p -> (2 <= List.length (active st))%nat -> p < ev_t ev ->
  intervals (sweepStep st ev) =
  intervals st ++ [mkInterval p (ev_t ev) (ev_t ev - p)
                              (active st) (List.length (active st))].
Proof.
  intros P L Lt. unfold sweepStep; cbn [intervals]. rewrite P.
  destruct (Nat.leb_spec 2 (List.length (active st))); [|lia].
  destruct (Z.gtb_spec (ev_t ev) p); [reflexivity | lia].
Qed.

Lemma sweepStep_keeps_intervals st ev iv :
  In iv (intervals st) -> In iv (intervals (sweepStep st ev)).
Proof.
  intros H. destruct (sweepStep_intervals st ev) as [->|(p & _ & _ & _ & ->)];
    [assumption | apply in_or_app; now left].
Qed.

Lemma spanEvents_NoDup_of l :
  (forall sp, In sp l -> sp_start sp < sp_end sp) ->
  own_spans_apart l ->
  NoDup (flat_map spanEvents l).
Proof.
  intros P F. unfold own_spans_apart in F.
  induction F as [|sp l F FOP IH]; simpl; [constructor|].
  assert (P' : forall s, In s l -> sp_start s < sp_end s)
    by (intros s H; apply P; now right).
  pose proof (P sp (or_introl eq_refl)) as Psp.
  assert (Fresh : forall e, In e (flat_map spanEvents l) ->
                            e <> mkEvent (sp_start sp) 1 (sp_who sp) /\
                            e <> mkEvent (sp_end sp) (-1) (sp_who sp)).
  { intros e IN. apply in_flat_map in IN. destruct IN as (s & INs & INe).
    rewrite Forall_forall in F. specialize (F s INs). specialize (P' s INs).
    destruct INe as [<-|[<-|[]]]; split; intros [= E1 E2];
      try discriminate; symmetry in E2; destruct (F E2); lia. }
  constructor; [|constructor].
  - intros [H|H]; [discriminate|]. destruct (Fresh _ H) as [N _]. now apply N.
  - intros H. destruct (Fresh _ H) as [_ N]. now apply N.
  - now apply IH.
Qed.

Section SweepComplete.
Variable sps : list span.
Hypothesis positive : forall sp, In sp sps -> sp_start sp < sp_end sp.
Hypothesis own_apart : own_spans_apart sps.

Lemma same_player_apart a b :
  In a sps -> In b sps -> a <> b -> sp_who a = sp_who b -> apart a b.
Proof.
  intros Ia Ib N W.
  destruct (ForallOrdPairs_In own_apart a b Ia Ib) as [E|[H|H]].
  - contradiction.
  - auto.
  - symmetry in W. destruct (H W); [right | left]; assumption.
Qed.

Lemma spanEvents_NoDup : NoDup (flat_map spanEvents sps).
Proof. exact (spanEvents_NoDup_of sps positive own_apart). Qed.

Lemma sweepStep_complete done ev todo st :
  NoDup (done ++ ev :: todo) ->
  StronglySorted ev_le (done ++ ev :: todo) ->
  (forall x, In x (flat_map spanEvents sps) <-> In x (done ++ ev :: todo)) ->
  sweep_complete sps done (ev :: todo) st ->
  sweep_complete sps (done ++ [ev]) todo (sweepStep st ev).
Proof.
  intros ND S Same (ACT & PREV & IV & COV).
  destruct (sorted_split done ev todo S) as [Sdone Stodo].
  rewrite Forall_forall in Sdone, Stodo.
  assert (NItodo : ~ In ev todo).
  { apply NoDup_remove_2 in ND. intros H. apply ND. apply in_or_app. now right. }
  assert (Later : forall x, In x (ev :: todo) -> ev_t ev <= ev_t x).
  { intros x [<-|H]; [lia|]. specialize (Stodo x H). apply ev_le_spec in Stodo. lia. }
  assert (Earlier : forall x p, In x done -> prevT st = Some p -> ev_t x <= p).
  { intros x p H P. destruct (PREV x H) as (q & Q & Le). congruence. }
  assert (Ev : forall sp, In sp sps ->
               In (opening sp) (done ++ ev :: todo) /\
               In (closing sp) (done ++ ev :: todo)).
  { intros sp H. split; apply Same, in_flat_map; exists sp; simpl; auto. }
  assert (Live : forall sp x p,
             In sp sps -> holds sp x -> prevT st = Some p -> p <= x -> x < ev_t ev ->
             In (sp_who sp) (active st)).
  { intros sp x p H (Hs & He) P Px Xt. destruct (Ev sp H) as (IO & IC).
    apply ACT; [assumption| |].
    - apply in_app_or in IO. destruct IO as [IO|IO]; [assumption|].
      specialize (Later _ IO). simpl in Later. lia.
    - apply in_app_or in IC. destruct IC as [IC|IC]; [|assumption].
      specialize (Earlier _ p IC P). simpl in Earlier. lia. }
  split; [|split; [|split]].
  - intros sp INsp IO IC. apply in_app_or in IO.
    destruct IO as [IO|[E|[]]].
    + assert (W : In (sp_who sp) (active st)) by (apply ACT; auto; now right).
      unfold sweepStep; cbn [active].
      destruct (Z.eqb_spec (ev_type ev) (-1)) as [Tm|Tm].
      * apply set_delete_keeps; [|assumption]. intros Who.
        assert (INev : In ev (flat_map spanEvents sps)).
        { apply Same. apply in_or_app. right. now left. }
        destruct (span_event_cases sps ev INev) as (sp0 & IN0 & [E|E]);
          [rewrite E in Tm; discriminate|].
        assert (Ne : sp <> sp0).
        { intros ->. apply NItodo. rewrite E. exact IC. }
        assert (Wh : sp_who sp = sp_who sp0) by (rewrite <- Who, E; reflexivity).
        pose proof (same_player_apart sp sp0 INsp IN0 Ne Wh) as Ap.
        pose proof (positive sp0 IN0) as P0.
        specialize (Sdone _ IO). apply ev_le_spec in Sdone.
        specialize (Stodo _ IC). apply ev_le_spec in Stodo.
        rewrite E in Sdone, Stodo. simpl in Sdone, Stodo.
        destruct Ap; lia.
      * destruct (ev_type ev =? 1); [now apply set_add_keeps | assumption].
    + unfold sweepStep; cbn [active]. rewrite E. simpl.
      apply set_add_has.
  - intros x IN. exists (ev_t ev). split; [reflexivity|].
    apply in_app_or in IN. destruct IN as [IN|[<-|[]]]; [|lia].
    specialize (Sdone _ IN). apply ev_le_spec in Sdone. lia.
  - destruct (sweepStep_intervals st ev) as [->|(p & P & L2 & Lt & ->)];
      [assumption|].
    apply Forall_app. split; [assumption|].
    constructor; [|constructor]. split.
    + intros sp INsp (Cs & Ce). cbn [iv_start iv_end iv_players] in *.
      apply (Live sp p p); auto; [split|]; lia.
    + intros t (sp & INsp & Bt). cbn [iv_start iv_end].
      destruct (Ev sp INsp) as (IO & IC).
      assert (Side : forall e, In e (done ++ ev :: todo) ->
                               ev_t e <= p \/ ev_t ev <= ev_t e).
      { intros e H. apply in_app_or in H. destruct H as [H|H].
        - left. now apply Earlier.
        - right. now apply Later. }
      destruct Bt as [->| ->]; [apply (Side _ IO) | apply (Side _ IC)].
  - intros x spA spB q IA IB NAB HA HB [= <-] Xt.
    destruct (prevT st) as [p|] eqn:P.
    + destruct (Z.lt_ge_cases x p) as [Lt|Ge].
      * destruct (COV x spA spB p IA IB NAB HA HB eq_refl Lt) as (iv & INiv & C).
        exists iv. split; [now apply sweepStep_keeps_intervals | exact C].
      * assert (WA : In (sp_who spA) (active st)) by (apply (Live spA x p); auto).
        assert (WB : In (sp_who spB) (active st)) by (apply (Live spB x p); auto).
        rewrite (sweepStep_emits st ev p P (two_members _ _ _ WA WB NAB)) by lia.
        eexists. split; [apply in_or_app; right; now left|].
        cbn [iv_start iv_end]. lia.
    + exfalso. destruct (Ev spA IA) as (IO & _). destruct HA as (Hs & He).
      apply in_app_or in IO. destruct IO as [IO|IO].
      * destruct (PREV _ IO) as (q & Q & _). discriminate.
      * specialize (Later _ IO). simpl in Later. lia.
Qed.

Lemma sweep_fold_complete todo :
  forall done st,
    NoDup (done ++ todo) ->
    StronglySorted ev_le (done ++ todo) ->
    (forall x, In x (flat_map spanEvents sps) <-> In x (done ++ todo)) ->
    sweep_complete sps done todo st ->
    sweep_complete sps (done ++ todo) [] (fold_left sweepStep todo st).
Proof.
  induction todo as [|ev todo IH]; intros done st ND S Same OK; simpl.
  - now rewrite app_nil_r.
  - replace (done ++ ev :: todo) with ((done ++ [ev]) ++ todo)
      by (now rewrite <- app_assoc).
    apply IH.
    + now rewrite <- app_assoc.
    + now rewrite <- app_assoc.
    + intros x. rewrite <- app_assoc. apply Same.
    + now apply sweepStep_complete.
Qed.

Lemma sweep_sorted_complete :
  sweep_complete sps (sortEvents (flat_map spanEvents sps)) []
                 (sweep (sortEvents (flat_map spanEvents sps))).
Proof.
  unfold sweep. apply (sweep_fold_complete _ []).
  - apply sortEvents_NoDup, spanEvents_NoDup.
  - apply sortEvents_sorted.
  - intros x. simpl. symmetry. apply sortEvents_In.
  - repeat split; simpl; try contradiction; try discriminate. constructor.
Qed.
End SweepComplete.

Lemma allIntervals_complete now s :
  (forall sp, In sp (spans now s) -> sp_start sp < sp_end sp) ->
  own_spans_apart (spans now s) ->
  sweep_complete (spans now s) (sortEvents (buildEvents now s)) []
                 (sweep (sortEvents (buildEvents now s))).
Proof.
  intros P A. rewrite buildEvents_spans. now apply sweep_sorted_complete.
Qed.

(** X19. When every span has positive length and the spans of one player
    name do not overlap each other, the participants of an emitted interval
    are exactly the players with a span that lasts through the whole
    interval. *)
Theorem overlap_participants_exact :
  forall (now : Z) (s : state),
    (forall sp, In sp (spans now s) -> sp_start sp < sp_end sp) ->
    own_spans_apart (spans now s) ->
    forall iv n,
      In iv (allIntervals now s) ->
      (In n (iv_players iv) <->
       exists sp, In sp (spans now s) /\ sp_who sp = n /\ covers sp iv).
Proof.
  intros now s P A iv n IN. split.
  - intros INn. pose proof (allIntervals_covered now s P) as C.
    rewrite Forall_forall in C.
    destruct (C iv IN n INn) as (sp & INsp & W & Cs & Ce).
    exists sp. repeat split; assumption.
  - intros (sp & INsp & <- & C).
    destruct (allIntervals_complete now s P A) as (_ & _ & IV & _).
    rewrite Forall_forall in IV. destruct (IV iv IN) as (K & _). auto.
Qed.

Lemma store_two_spans :
  spans 9000000 (mem store_two) =
  [mkSpan 0 1800000 "Zumito Kun"; mkSpan 900000 2700000 "Lulau22"].
Proof. reflexivity. Qed.

Lemma store_two_positive :
  forall sp, In sp (spans 9000000 (mem store_two)) -> sp_start sp < sp_end sp.
Proof.
  rewrite store_two_spans. intros sp [<-|[<-|[]]]; simpl; lia.
Defined.

Lemma store_two_apart : own_spans_apart (spans 9000000 (mem store_two)).
Proof.
  rewrite store_two_spans. unfold own_spans_apart.
  constructor; [|constructor; [constructor | constructor]].
  constructor; [|constructor]. simpl. discriminate.
Defined.

Lemma overlap_participants_exact_witness :
  In "Lulau22"%string
     (iv_players (mkInterval 900000 1800000 900000 ["Zumito Kun"; "Lulau22"]%string 2))
  <->
  exists sp, In sp (spans 9000000 (mem store_two)) /\ sp_who sp = "Lulau22"%string /\
             covers sp (mkInterval 900000 1800000 900000
                                   ["Zumito Kun"; "Lulau22"]%string 2).
Proof.
  apply (overlap_participants_exact 9000000 (mem store_two)
           store_two_positive store_two_apart).
  left. reflexivity.
Defined.

(** X20. When every span has positive length and the spans of one player
    name do not overlap each other, no simultaneous play is missed: an
    instant that falls in the spans of two players of different names
    falls in an emitted interval that has both as participants. *)
Theorem simultaneous_play_is_reported :
  forall (now : Z) (s : state),
    (forall sp, In sp (spans now s) -> sp_start sp < sp_end sp) ->
    own_spans_apart (spans now s) ->
    forall (x : Z) (spA spB : span),
      In spA (spans now s) -> In spB (spans now s) ->
      sp_who spA <> sp_who spB ->
      holds spA x -> holds spB x ->
      exists iv,
        In iv (allIntervals now s) /\
        iv_start iv <= x < iv_end iv /\
        In (sp_who spA) (iv_players iv) /\ In (sp_who spB) (iv_players iv).
Proof.
  intros now s P A x spA spB IA IB N HA HB.
  destruct (allIntervals_complete now s P A) as (_ & PREV & IV & COV).
  assert (IC : In (closing spA) (sortEvents (buildEvents now s))).
  { apply sortEvents_In. rewrite buildEvents_spans. apply in_flat_map.
    exists spA. simpl. auto. }
  destruct (PREV _ IC) as (p & Pp & Le). simpl in Le.
  destruct (COV x spA spB p IA IB N HA HB Pp) as (iv & INiv & C);
    [destruct HA; lia|].
  exists iv. split; [exact INiv|]. split; [exact C|].
  rewrite Forall_forall in IV. destruct (IV iv INiv) as (K & El).
  assert (Cov : forall sp, In sp (spans now s) -> holds sp x -> covers sp iv).
  { intros sp INsp (Hs & He). split.
    - destruct (El (sp_start sp)) as [H|H]; [exists sp; auto | exact H | lia].
    - destruct (El (sp_end sp)) as [H|H]; [exists sp; auto | lia | exact H]. }
  split; apply K; auto.
Qed.

Lemma simultaneous_play_is_reported_witness :
  exists iv,
    In iv (allIntervals 9000000 (mem store_two)) /\
    iv_start iv <= 1000000 < iv_end iv /\
    In (sp_who (mkSpan 0 1800000 "Zumito Kun")) (iv_players iv) /\
    In (sp_who (mkSpan 900000 2700000 "Lulau22")) (iv_players iv).
Proof.
  apply (simultaneous_play_is_reported 9000000 (mem store_two)
           store_two_positive store_two_apart 1000000
           (mkSpan 0 1800000 "Zumito Kun") (mkSpan 900000 2700000 "Lulau22")).
  - left. reflexivity.
  - right. left. reflexivity.
  - discriminate.
  - unfold holds; simpl; lia.
  - unfold holds; simpl; lia.
Defined.

(** ** The endpoints of the intervals *)

Lemma sweep_fold_between all todo :
  forall done st,
    all = done ++ todo ->
    StronglySorted ev_le all ->
    sweep_between all done st ->
    sweep_between all all (fold_left sweepStep todo st).
Proof.
  induction todo as [|ev todo IH]; intros done st E S OK; simpl.
  - rewrite app_nil_r in E. now subst done.
  - apply (IH (done ++ [ev])); [now rewrite <- app_assoc | assumption |].
    destruct OK as (PREV & PT & IV).
    assert (S' := S). rewrite E in S'.
    destruct (sorted_split done ev todo S') as [Sdone Stodo].
    rewrite Forall_forall in Sdone, Stodo.
    split; [|split].
    + intros x IN. exists (ev_t ev). split; [reflexivity|].
      apply in_app_or in IN. destruct IN as [IN|[<-|[]]]; [|lia].
      specialize (Sdone _ IN). apply ev_le_spec in Sdone. lia.
    + intros p [= <-]. exists ev. split; [apply in_or_app; right; now left | reflexivity].
    + destruct (sweepStep_intervals st ev) as [->|(p & P & _ & Lt & ->)];
        [assumption|].
      apply Forall_app. split; [assumption|]. constructor; [|constructor].
      destruct (PT p P) as (x & INx & Ex). split.
      * exists x, ev. rewrite E. cbn [iv_start iv_end].
        repeat split; auto; apply in_or_app; [now left | right; now left].
      * intros e INe. cbn [iv_start iv_end]. rewrite E in INe.
        apply in_app_or in INe. destruct INe as [INe|[<-|INe]].
        -- left. destruct (PREV e INe) as (q & Q & Le). congruence.
        -- right. lia.
        -- right. specialize (Stodo _ INe). apply ev_le_spec in Stodo. lia.
Qed.

Lemma boundary_event now s e :
  In e (sortEvents (buildEvents now s)) -> boundary (spans now s) (ev_t e).
Proof.
  intros IN. apply (proj1 (sortEvents_In _ _)) in IN.
  rewrite buildEvents_spans in IN. apply in_flat_map in IN.
  destruct IN as (sp & INsp & [<-|[<-|[]]]); exists sp; simpl; auto.
Qed.

Lemma event_boundary now s t :
  boundary (spans now s) t -> exists e, In e (sortEvents (buildEvents now s)) /\ ev_t e = t.
Proof.
  intros (sp & INsp & B).
  assert (H : forall e, In e (spanEvents sp) -> In e (sortEvents (buildEvents now s))).
  { intros e INe. apply sortEvents_In. rewrite buildEvents_spans.
    apply in_flat_map. eauto. }
  destruct B as [->| ->].
  - exists (opening sp). split; [apply H; now left | reflexivity].
  - exists (closing sp). split; [apply H; right; now left | reflexivity].
Qed.

(** X21. Every emitted interval runs from one session boundary to the
    next: its start and its end are instants at which some span starts or
    ends, and no span starts or ends strictly inside it. *)
Theorem intervals_run_between_boundaries :
  forall (now : Z) (s : state) (iv : interval),
    In iv (allIntervals now s) ->
    boundary (spans now s) (iv_start iv) /\
    boundary (spans now s) (iv_end iv) /\
    elementary (spans now s) iv.
Proof.
  intros now s iv IN.
  destruct (sweep_fold_between (sortEvents (buildEvents now s))
              (sortEvents (buildEvents now s)) [] (mkSweep [] [] None))
    as (_ & _ & IV).
  - reflexivity.
  - apply sortEvents_sorted.
  - repeat split; simpl; try contradiction; try discriminate. constructor.
  - rewrite Forall_forall in IV.
    destruct (IV iv IN) as ((e1 & e2 & I1 & I2 & E1 & E2) & B).
    split; [rewrite <- E1; exact (boundary_event now s e1 I1)|].
    split; [rewrite <- E2; exact (boundary_event now s e2 I2)|].
    intros t Bt. destruct (event_boundary now s t Bt) as (e & INe & <-). auto.
Qed.

Lemma intervals_run_between_boundaries_witness :
  boundary (spans 9000000 (mem store_two))
           (iv_start (mkInterval 900000 1800000 900000 ["Zumito Kun"; "Lulau22"]%string 2)) /\
  boundary (spans 9000000 (mem store_two))
           (iv_end (mkInterval 900000 1800000 900000 ["Zumito Kun"; "Lulau22"]%string 2)) /\
  elementary (spans 9000000 (mem store_two))
             (mkInterval 900000 1800000 900000 ["Zumito Kun"; "Lulau22"]%string 2).
Proof.
  apply (intervals_run_between_boundaries 9000000 (mem store_two)).
  left. reflexivity.
Defined.

(** ** The load contract *)

Lemma same_data_refl p : same_data p p.
Proof. repeat split. Qed.

Lemma same_data_trans p q r : same_data p q -> same_data q r -> same_data p r.
Proof.
  intros (A & B & C & D) (A' & B' & C' & D'). repeat split; congruence.
Qed.

Lemma mergeRoster_data ps r k p :
  lookup k ps = Some p ->
  exists p', lookup k (mergeRoster ps r) = Some p' /\ same_data p p' /\
             (r_name r <> k -> p' = p).
Proof.
  intros L. destruct (String.eqb_spec (r_name r) k) as [E|N].
  - subst k. unfold mergeRoster. rewrite L, lookup_update_same, L. simpl.
    eexists. split; [reflexivity|]. split; [repeat split | contradiction].
  - rewrite (mergeRoster_other ps r k N). exists p.
    split; [assumption|]. split; [apply same_data_refl | reflexivity].
Qed.

Lemma merge_data rs :
  forall ps k p,
    lookup k ps = Some p ->
    exists p', lookup k (fold_left mergeRoster rs ps) = Some p' /\ same_data p p' /\
               ((forall r, In r rs -> r_name r <> k) -> p' = p).
Proof.
  induction rs as [|r rs IH]; intros ps k p L; simpl.
  - exists p. split; [assumption|]. split; [apply same_data_refl | reflexivity].
  - destruct (mergeRoster_data ps r k p L) as (p1 & L1 & D1 & E1).
    destruct (IH _ k p1 L1) as (p' & L' & D' & E').
    exists p'. split; [assumption|]. split; [eapply same_data_trans; eassumption|].
    intros N. rewrite E' by (intros r' H; apply N; now right).
    apply E1, N. now left.
Qed.

(** X24. Whatever the data file holds, [loadState] returns a state with an
    entry for every roster player under the configured URL.  From a stored
    state it keeps, under the same key, the name, both pointers and the
    sessions of every stored entry, the whole entry when the key is not on
    the roster, and [latestMatch] and [createdAt]; from a missing or
    unreadable file it returns the default state. *)
Theorem loadState_merges_roster :
  forall (now : Z) (d : dataFile),
    roster_synced PLAYERS (players (loadState now d)) /\
    (forall parsed, d = Stored parsed ->
       latestMatch (loadState now d) = latestMatch parsed /\
       createdAt (loadState now d) = createdAt parsed /\
       forall k p, lookup k (players parsed) = Some p ->
         exists p', lookup k (players (loadState now d)) = Some p' /\
                    same_data p p' /\
                    ((forall r, In r PLAYERS -> r_name r <> k) -> p' = p)) /\
    ((forall parsed, d <> Stored parsed) -> loadState now d = defaultState now).
Proof.
  intros now d. split; [apply loadState_synced|]. split.
  - intros parsed ->. cbn [loadState latestMatch createdAt players].
    repeat split. intros k p L. now apply merge_data.
  - intros N. destruct d as [| |parsed]; try reflexivity.
    exfalso. now apply (N parsed).
Qed.

(** X25. Loading is idempotent: a state that [loadState] returned, once
    stored, loads back as itself. *)
Theorem loadState_idempotent :
  forall (now now' : Z) (d : dataFile),
    loadState now' (Stored (loadState now d)) = loadState now d.
Proof.
  intros now now' d. cbn [loadState].
  rewrite merge_fixed by apply loadState_synced.
  now destruct (loadState now d).
Qed.

Example loadState_old_file :
  map fst (players (loadState 9 old_file)) =
    ["Ghost"; "Cronoxis"; "Zumito Kun"; "Lulau22"; "Antocar69 TTV"]%string /\
  option_map url (lookup "Cronoxis" (players (loadState 9 old_file))) =
    Some "https://fortnitetracker.com/profile/all/Cronoxis/matches"%string /\
  option_map sessions (lookup "Cronoxis" (players (loadState 9 old_file))) =
    Some [mkSession (Some 0) None].
Proof. repeat split. Qed.

(** ** The scrape *)

Example evaluateLinks_sample :
  evaluateLinks sample_parse sample_links = Some (mkInfo "m3" 4).
Proof. reflexivity. Qed.

Example scrapeLatestMatch_sample :
  scrapeLatestMatch sample_parse sample_page = Some (mkInfo "m3" 4).
Proof. reflexivity. Qed.

Section ScrapeFacts.
Variable parse : string -> option Z.

Lemma pickStep_candidate best a :
  pickStep parse best a =
  match candidate parse a with
  | None => best
  | Some (t, i) =>
      match best with
      | None => Some (mkBest t t i)
      | Some b => if t >? ts b then Some (mkBest t t i) else best
      end
  end.
Proof.
  unfold pickStep, candidate.
  destruct (l_dt a) as [dt|], (l_idMatch a) as [i|]; simpl; try reflexivity.
  - destruct (String.eqb dt EmptyString), (String.eqb i EmptyString); simpl;
      try reflexivity.
    destruct (parse dt); reflexivity.
  - destruct (String.eqb dt EmptyString); reflexivity.
Qed.

Lemma candidate_id a t i : candidate parse a = Some (t, i) -> i <> EmptyString.
Proof.
  unfold candidate. destruct (l_dt a) as [dt|], (l_idMatch a) as [j|]; try discriminate.
  simpl. destruct (String.eqb dt EmptyString); simpl; [discriminate|].
  destruct (String.eqb_spec j EmptyString); simpl; [discriminate|].
  destruct (parse dt); simpl; [|discriminate]. now intros [= _ <-].
Qed.

Lemma fold_picked l : picked parse l (fold_left (pickStep parse) l None).
Proof.
  induction l as [|a l IH] using rev_ind; [intros a []|].
  rewrite fold_left_app. cbn [fold_left]. rewrite pickStep_candidate.
  destruct (candidate parse a) as [[t i]|] eqn:C.
  - destruct (fold_left (pickStep parse) l None) as [b|].
    + destruct IH as (Eb & pre & x & post & El & Cx & Hpre & Hpost).
      destruct (Z.gtb_spec t (ts b)) as [Gt|Le].
      * split; [reflexivity|]. exists l, a, []. cbn [ts b_matchId].
        repeat split; auto; [|intros y t' i' []].
        intros y t' i' INy Cy. rewrite El in INy.
        apply in_app_or in INy. destruct INy as [INy|[<-|INy]].
        -- specialize (Hpre y t' i' INy Cy). lia.
        -- assert (t' = ts b) by congruence. lia.
        -- specialize (Hpost y t' i' INy Cy). lia.
      * split; [assumption|]. exists pre, x, (post ++ [a]).
        split; [rewrite El, <- app_assoc; reflexivity|].
        repeat split; auto.
        intros y t' i' INy Cy. apply in_app_or in INy.
        destruct INy as [INy|[<-|[]]]; [eauto|].
        assert (t' = t) by congruence. lia.
    + split; [reflexivity|]. exists l, a, []. cbn [ts b_matchId].
      repeat split; auto; [|intros y t' i' []].
      intros y t' i' INy Cy. simpl in IH. rewrite (IH y INy) in Cy. discriminate.
  - destruct (fold_left (pickStep parse) l None) as [b|].
    + destruct IH as (Eb & pre & x & post & El & Cx & Hpre & Hpost).
      split; [assumption|]. exists pre, x, (post ++ [a]).
      split; [rewrite El, <- app_assoc; reflexivity|].
      repeat split; auto.
      intros y t' i' INy Cy. apply in_app_or in INy.
      destruct INy as [INy|[<-|[]]]; [eauto | congruence].
    + intros y INy. apply in_app_or in INy. destruct INy as [INy|[<-|[]]]; auto.
Qed.

Lemma evaluateLinks_id links info :
  evaluateLinks parse links = Some info -> matchId info <> EmptyString.
Proof.
  pose proof (fold_picked links) as P. unfold evaluateLinks.
  destruct (fold_left (pickStep parse) links None) as [b|]; [|discriminate].
  destruct P as (_ & pre & a & post & _ & Ca & _).
  intros [= <-]. exact (candidate_id a _ _ Ca).
Qed.

(** X26. Out of the links of a page, [evaluateLinks] returns [null] exactly
    when no link has a [datetime] that parses together with a match id, and
    otherwise the match of the latest instant, the first in page order among
    equals; its id is never empty. *)
Theorem evaluateLinks_picks_latest :
  forall links : list link,
    (evaluateLinks parse links = None <->
     forall a, In a links -> candidate parse a = None) /\
    (forall info, evaluateLinks parse links = Some info ->
       matchId info <> EmptyString /\
       exists pre a post,
         links = pre ++ a :: post /\
         candidate parse a = Some (atISO info, matchId info) /\
         (forall x t i, In x pre -> candidate parse x = Some (t, i) -> t < atISO info) /\
         (forall x t i, In x post -> candidate parse x = Some (t, i) -> t <= atISO info)).
Proof.
  intros links. pose proof (fold_picked links) as P. unfold evaluateLinks.
  destruct (fold_left (pickStep parse) links None) as [b|]; simpl in P.
  - destruct P as (Eb & pre & a & post & El & Ca & Hpre & Hpost). split.
    + split; [discriminate|]. intros H.
      rewrite (H a) in Ca; [discriminate|]. rewrite El. apply in_or_app. right. now left.
    + intros info [= <-]. cbn [matchId atISO]. rewrite Eb.
      split; [exact (candidate_id a _ _ Ca)|]. exists pre, a, post. auto.
  - split; [tauto | discriminate].
Qed.

Lemma attempts_step n a page :
  attempts parse (S n) a page =
  match attemptResult parse page a with
  | Some info => Some info
  | None => attempts parse n (S a) page
  end.
Proof.
  cbn [attempts]. unfold attemptResult. destruct (page a) as [|links]; [reflexivity|].
  destruct (evaluateLinks parse links) as [info|] eqn:E; [|reflexivity].
  pose proof (evaluateLinks_id links info E) as N.
  apply String.eqb_neq in N. now rewrite N.
Qed.

Lemma attempts_spec n :
  forall a page,
    (attempts parse n a page = None <->
     forall k, (a <= k < a + n)%nat -> attemptResult parse page k = None) /\
    (forall info, attempts parse n a page = Some info ->
       exists k, (a <= k < a + n)%nat /\
                 attemptResult parse page k = Some info /\
                 forall j, (a <= j < k)%nat -> attemptResult parse page j = None).
Proof.
  induction n as [|n IH]; intros a page.
  - simpl. split; [split; [intros _ k H; lia | reflexivity] | discriminate].
  - rewrite attempts_step. destruct (IH (S a) page) as (IN & IS).
    destruct (attemptResult parse page a) as [i|] eqn:E.
    + split.
      * split; [discriminate|]. intros H. rewrite H in E by lia. discriminate.
      * intros info [= <-]. exists a. repeat split; [lia.. | assumption | intros j H; lia].
    + split.
      * rewrite IN. split; intros H k Hk.
        -- destruct (Nat.eq_dec k a) as [->|N]; [assumption | apply H; lia].
        -- apply H. lia.
      * intros info H. destruct (IS info H) as (k & Hk & Ek & Before).
        exists k. repeat split; [lia.. | assumption|].
        intros j Hj. destruct (Nat.eq_dec j a) as [->|N]; [assumption | apply Before; lia].
Qed.

(** X27. [scrapeLatestMatch] returns the match of the first of its three
    attempts that yields one, and [null] exactly when none of the three
    does; a match that [evaluateLinks] returns always passes the check that
    follows it, and what a fourth load would give plays no part. *)
Theorem scrapeLatestMatch_three_attempts :
  forall page : nat -> pageLoad,
    (scrapeLatestMatch parse page = None <->
     forall k, (1 <= k <= 3)%nat -> attemptResult parse page k = None) /\
    (forall info, scrapeLatestMatch parse page = Some info ->
       exists k, (1 <= k <= 3)%nat /\
                 attemptResult parse page k = Some info /\
                 forall j, (1 <= j < k)%nat -> attemptResult parse page j = None) /\
    (forall page',
       (forall k, (1 <= k <= 3)%nat -> page' k = page k) ->
       scrapeLatestMatch parse page' = scrapeLatestMatch parse page).
Proof.
  intros page. unfold scrapeLatestMatch.
  destruct (attempts_spec 3 1 page) as (HN & HS). split; [|split].
  - rewrite HN. split; intros H k Hk; apply H; lia.
  - intros info H. destruct (HS info H) as (k & Hk & E & B).
    exists k. repeat split; [lia.. | assumption | assumption].
  - intros page' Same. rewrite !attempts_step. unfold attemptResult.
    rewrite !Same by lia. reflexivity.
Qed.
End ScrapeFacts.

(** ** The durations on the page *)

Lemma In_firstn_sub {A} n (l : list A) x : In x (firstn n l) -> In x l.
Proof.
  intros H. rewrite <- (firstn_skipn n l). apply in_or_app. now left.
Qed.

Lemma In_skipn_sub {A} n (l : list A) x : In x (skipn n l) -> In x l.
Proof.
  intros H. rewrite <- (firstn_skipn n l). apply in_or_app. now right.
Qed.

(** X28. Every duration [renderOverlaps] hands to [fmtDur], the four totals
    of the summary and the [durationMs] of every row, is one the text reads
    back from: the page shows their whole seconds. *)
Theorem page_durations_read_back :
  forall (now : Z) (w : world),
    exists r,
      computeOverlaps now w = Some (r, w) /\
      readDuration (fmtDur (twoOrMoreMs (ov_summary r)))
        = Some (twoOrMoreMs (ov_summary r) / 1000) /\
      readDuration (fmtDur (exactly2Ms (ov_summary r)))
        = Some (exactly2Ms (ov_summary r) / 1000) /\
      readDuration (fmtDur (exactly3Ms (ov_summary r)))
        = Some (exactly3Ms (ov_summary r) / 1000) /\
      readDuration (fmtDur (exactly4Ms (ov_summary r)))
        = Some (exactly4Ms (ov_summary r) / 1000) /\
      forall iv, In iv (overlapRows r) ->
        readDuration (fmtDur (durationMs iv)) = Some (durationMs iv / 1000).
Proof.
  intros now w. eexists. split; [apply computeOverlaps_run|].
  cbn [ov_summary ov_intervals]. rewrite summarize_spec.
  cbn [exactly2Ms exactly3Ms exactly4Ms twoOrMoreMs].
  destruct (allIntervals_ok now (mem w)) as [OK _].
  pose proof (totalMs_nonneg _ (Forall_with_count interval_ok is2 _ OK)).
  pose proof (totalMs_nonneg _ (Forall_with_count interval_ok is3 _ OK)).
  pose proof (totalMs_nonneg _ (Forall_with_count interval_ok atLeast4 _ OK)).
  repeat split; try (apply readDuration_fmtDuration; lia).
  intros iv IN. apply readDuration_fmtDuration.
  unfold overlapRows, newestFirst in IN; cbn [ov_intervals] in IN.
  assert (INall : In iv (allIntervals now (mem w))).
  { apply In_firstn_sub in IN. apply in_rev in IN.
    unfold slice_last in IN. now apply In_skipn_sub in IN. }
  rewrite Forall_forall in OK. destruct (OK iv INall) as (_ & _ & _ & _ & P). lia.
Qed.
